(** * The rule orchestration engine of maps_workflow/main.py

    A shallow embedding of [load_all_rules], [execute_rules] and
    [generate_rules_file], followed by the properties of the engine.

    Python values are modelled as far as the engine looks at them:
    - a YAML value loaded by ruamel is a [yaml] (null, bool, int, str,
      sequence, mapping with string keys; floats and timestamps are left out);
    - a dict keyed by strings is a [gmap string _]; the status table
      [rule_status], whose keys can be any hashable value, is a
      [gmap pykey bool];
    - a call that can raise returns a [py_result];
    - [logging] calls and the calls into rule objects are recorded, in order,
      in the [log] of the engine state, so that "was never invoked" and
      "reported as not found" are statements about that list. *)

From stdpp Require Import gmap strings list sorting fin_maps.
From Stdlib Require Import ZArith.
From Stdlib Require Import Ascii.

Local Open Scope string_scope.
Local Open Scope list_scope.

(** ** Python values *)

#[local] Unset Elimination Schemes.
Inductive yaml : Type :=
  | YNull
  | YBool (b : bool)
  | YInt (z : Z)
  | YStr (s : string)
  | YSeq (xs : list yaml)
  | YMap (kvs : list (string * yaml)).
#[local] Set Elimination Schemes.

(** Hashable values as dict keys. [True] and [1] (and [False] and [0]) are
    the same key in Python, so a bool is stored as its integer. *)
Inductive pykey : Type :=
  | KNone
  | KInt (z : Z)
  | KStr (s : string).

#[global] Instance pykey_eq_dec : EqDecision pykey.
Proof. solve_decision. Defined.

Definition pykey_encode (k : pykey) : unit + (Z + string) :=
  match k with
  | KNone => inl tt
  | KInt z => inr (inl z)
  | KStr s => inr (inr s)
  end.

Definition pykey_decode (x : unit + (Z + string)) : pykey :=
  match x with
  | inl _ => KNone
  | inr (inl z) => KInt z
  | inr (inr s) => KStr s
  end.

#[global] Instance pykey_countable : Countable pykey.
Proof.
  refine (inj_countable' pykey_encode pykey_decode _).
  by intros [].
Defined.

(** [hash(v)] succeeds: the key under which [v] is stored; ruamel's
    sequences and mappings are unhashable. *)
Definition hashable (v : yaml) : option pykey :=
  match v with
  | YNull => Some KNone
  | YBool b => Some (KInt (if b then 1 else 0))
  | YInt z => Some (KInt z)
  | YStr s => Some (KStr s)
  | YSeq _ | YMap _ => None
  end.

(** Exceptions, by the class the engine can tell apart. [NonException] is a
    [BaseException] outside [Exception] ([SystemExit], [KeyboardInterrupt]),
    which [except Exception] does not catch. *)
Inductive pyexn : Type :=
  | KeyError (key : string)
  | TypeError (msg : string)
  | UnboundLocalError (var : string)
  | OtherException (msg : string)
  | NonException (msg : string).

Definition is_Exception (e : pyexn) : bool :=
  match e with
  | NonException _ => false
  | _ => true
  end.

Inductive py_result (A : Type) : Type :=
  | Return (a : A)
  | Raised (e : pyexn).
Arguments Return {A} a.
Arguments Raised {A} e.

(** ** Rule descriptors *)

Inductive rule_type : Type := TRequire | TFail | TSkip.

#[global] Instance rule_type_eq_dec : EqDecision rule_type.
Proof. solve_decision. Defined.

Record BaseRuleConfig : Type := {
  name : string;
  module : string;
  class_name : string;
  description : option string;
  type : rule_type;
  depends_on : list string;
  params : yaml;
}.

Definition as_str (v : yaml) : option string :=
  match v with
  | YStr s => Some s
  | _ => None
  end.

Definition as_rule_type (v : yaml) : option rule_type :=
  match v with
  | YStr s =>
      if decide (s = "require") then Some TRequire
      else if decide (s = "fail") then Some TFail
      else if decide (s = "skip") then Some TSkip
      else None
  | _ => None
  end.

Definition as_str_list (v : yaml) : option (list string) :=
  match v with
  | YSeq xs => mapM as_str xs
  | _ => None
  end.

(** Modelled from the spec: [BaseRuleConfig] of maps_workflow/baserule.py,
    the pydantic model that [execute_rules] builds from each raw mapping, is
    not among the sources. Spec 4.1: required fields [name], [module], [class_name],
    [type]; [depends_on] defaults to an empty sequence; [params] defaults to
    an empty mapping; [type] must be one of the three policy values. Spec 3
    gives the field types (strings, a sequence of names, a mapping).
    [description] is not required; the spec names no default, so an absent
    one is [None]. [None] is the [ValidationError]. *)
Definition BaseRuleConfig_validate (rule : gmap string yaml)
  : option BaseRuleConfig :=
  n ← rule !! "name" ≫= as_str;
  m ← rule !! "module" ≫= as_str;
  c ← rule !! "class_name" ≫= as_str;
  t ← rule !! "type" ≫= as_rule_type;
  d ← match rule !! "description" with
      | None => Some None
      | Some (YStr s) => Some (Some s)
      | Some _ => None
      end;
  deps ← match rule !! "depends_on" with
         | None => Some []
         | Some v => as_str_list v
         end;
  ps ← match rule !! "params" with
       | None => Some (YMap [])
       | Some (YMap kvs) => Some (YMap kvs)
       | Some _ => None
       end;
  Some {| name := n; module := m; class_name := c; description := d;
          type := t; depends_on := deps; params := ps |}.

(** [config = {'rules': [...]}] *)
Record Config : Type := { rules : list (gmap string yaml) }.

(** ** The rule implementations, external to the engine *)

(** What [rule_func.evaluate()] does: return a sequence of violations
    (opaque, printable values) or raise. *)
Inductive eval_result : Type :=
  | EvalReturn (violations : list string)
  | EvalRaise (e : pyexn).

(** An instance of a rule class. [truthy] is [bool(rule_func)]: [True] for a
    plain object, [False] only if the class defines it so. Rule bodies are
    taken to be deterministic in their constructor arguments. *)
Record BaseRule : Type := {
  evaluate : eval_result;
  explain : py_result string;
  truthy : bool;
}.

(** The parsed artifact [twmap.Map(path)]; the engine only hands it on. *)
Record twmap_Map : Type := { map_handle : N }.

(** A class called as [cls(raw_file, map_data, params)]; the first two are
    [None] in documentation mode. *)
Definition rule_class : Type :=
  option string → option twmap_Map → yaml → py_result BaseRule.

(** [getattr(module, class_name, None)] *)
Definition py_module : Type := string → option rule_class.

Inductive import_result : Type :=
  | Imported (m : py_module)
  | ModuleNotFoundError
  | ImportRaise (e : pyexn).

(** [importlib.import_module], by full module name. *)
Record World : Type := { import_module : string → import_result }.

(** The declaration files. A loaded document is a mapping that has a
    ['rules'] list or not, or something that is not a mapping. *)
Inductive document : Type :=
  | DocMapping (rules_entry : option (list (gmap string yaml)))
  | DocOther.

Record FileSystem : Type := {
  listdir : string → py_result (list string);
  yaml_load : string → py_result document;
}.

(** ** What the engine reports *)

Inductive event : Type :=
  | LogValidationError
  | LogSkipUnmetDependencies (rule_name : string)
  | LogModuleNotFound (rule_module : string)
  | LogRuleFunctionNotFound (rule_name rule_module : string)
  | CallInstantiate (rule_module rule_class_name : string)
  | CallEvaluate (rule_name : string)
  | CallExplain (rule_name : string)
  | LogViolation (violation : string)
  | LogPassed (rule_name : string)
  | LogFailedRequired (rule_name : string)
  | LogFailedContinuing (rule_name : string)
  | LogFailedSkipping (rule_name : string)
  | LogErrorRequired (rule_name : string)
  | LogErrorFail (rule_name : string)
  | LogErrorSkip (rule_name : string)
  | LogAllProcessed.

#[global] Instance event_eq_dec : EqDecision event.
Proof. solve_decision. Defined.

(** ** String and path helpers of the Python library *)

(** [s.startswith(p)] *)
Definition startswith (s p : string) : bool := String.prefix p s.

(** [s.endswith(p)] *)
Definition endswith (s p : string) : bool :=
  (String.length p <=? String.length s)%nat
  && bool_decide
       (String.substring (String.length s - String.length p)
          (String.length p) s = p).

(** [os.path.join(a, b)] on POSIX *)
Definition os_path_join (a b : string) : string :=
  if startswith b "/" then b
  else if bool_decide (a = "") || endswith a "/" then a +:+ b
  else a +:+ "/" +:+ b.

(** [sorted] on a list of [str]: ascending in the order of the code points,
    which for UTF-8 names is the order of the bytes. The order is total and
    antisymmetric, so every sorting algorithm returns the same list
    ([sorted_unique] below). *)
Definition sorted (l : list string) : list string := merge_sort String.le l.

(** ** The loader *)

Module Loader.

Definition load_rules_from_file (fs : FileSystem) (file_path : string)
  : py_result document :=
  yaml_load fs file_path.

(** [rules['rules']] on the loaded document *)
Definition getitem_rules (doc : document)
  : py_result (list (gmap string yaml)) :=
  match doc with
  | DocMapping (Some rs) => Return rs
  | DocMapping None => Raised (KeyError "rules")
  | DocOther => Raised (TypeError "object is not subscriptable")
  end.

(** The body of the [for filename in ...] loop of [load_all_rules], with
    [all_rules['rules']] as the accumulator. *)
Fixpoint load_files (fs : FileSystem) (directory : string)
    (exclude : list string) (filenames : list string)
    (all_rules : list (gmap string yaml))
  : py_result (list (gmap string yaml)) :=
  match filenames with
  | [] => Return all_rules
  | filename :: rest =>
      if existsb (λ skip, startswith filename skip) exclude then
        load_files fs directory exclude rest all_rules
      else if endswith filename ".yaml" then
        let file_path := os_path_join directory filename in
        match load_rules_from_file fs file_path with
        | Raised e => Raised e
        | Return doc =>
            match getitem_rules doc with
            | Raised e => Raised e
            | Return rs =>
                load_files fs directory exclude rest (all_rules ++ rs)
            end
        end
      else load_files fs directory exclude rest all_rules
  end.

Definition load_all_rules (fs : FileSystem) (directory : string)
    (exclude : list string) : py_result Config :=
  match listdir fs directory with
  | Raised e => Raised e
  | Return names =>
      match load_files fs directory exclude (sorted names) [] with
      | Raised e => Raised e
      | Return all_rules => Return {| rules := all_rules |}
      end
  end.

(** The loader as the spec words it: a declaration file is a name with the
    extension that starts with no excluded prefix. *)
Definition declaration_file (exclude : list string) (filename : string)
  : bool :=
  endswith filename ".yaml"
  && negb (existsb (λ skip, startswith filename skip) exclude).

End Loader.

(** [load_rule_from_module]: the module, or [None] and a warning. *)
Definition load_rule_from_module (w : World) (rule_name : string)
    (log : list event) : py_result (option py_module) * list event :=
  match import_module w ("maps_workflow." +:+ rule_name) with
  | Imported m => (Return (Some m), log)
  | ModuleNotFoundError =>
      (Return None, log ++ [LogModuleNotFound rule_name])
  | ImportRaise e => (Raised e, log)
  end.

(** How the reference of a descriptor resolves: the steps both entry
    points take between the dependency gate and the use of the instance,
    named. [NotTruthy] is an instance that fails the [if not rule_func]
    test. *)
Inductive resolution : Type :=
  | ModuleMissing
  | ImportFailed (e : pyexn)
  | ClassMissing
  | ConstructFailed (e : pyexn)
  | NotTruthy (rule_func : BaseRule)
  | Resolved (rule_func : BaseRule).

Definition resolve (w : World) (raw_file : option string)
    (map_data : option twmap_Map) (rule : BaseRuleConfig) : resolution :=
  match import_module w ("maps_workflow." +:+ module rule) with
  | ModuleNotFoundError => ModuleMissing
  | ImportRaise e => ImportFailed e
  | Imported rule_module =>
      match rule_module (class_name rule) with
      | None => ClassMissing
      | Some cls =>
          match cls raw_file map_data (params rule) with
          | Raised e => ConstructFailed e
          | Return rule_func =>
              if truthy rule_func then Resolved rule_func
              else NotTruthy rule_func
          end
      end
  end.

(** ** The execution engine *)

Module Engine.

(** The locals of [execute_rules] that outlive one iteration: the status
    table, whether [rule_time_elapsed] has been assigned yet (its value, a
    float, only appears in messages), and what was reported so far. *)
#[projections(primitive)] Record state : Type := {
  rule_status : gmap pykey bool;
  rule_time_elapsed_bound : bool;
  log : list event;
}.

Definition initial_state : state :=
  {| rule_status := ∅; rule_time_elapsed_bound := false; log := [] |}.

Definition set_status (k : pykey) (b : bool) (st : state) : state :=
  {| rule_status := <[k := b]> (rule_status st);
     rule_time_elapsed_bound := rule_time_elapsed_bound st;
     log := log st |}.

Definition set_log (lg : list event) (st : state) : state :=
  {| rule_status := rule_status st;
     rule_time_elapsed_bound := rule_time_elapsed_bound st;
     log := lg |}.

Definition emit (evs : list event) (st : state) : state :=
  set_log (log st ++ evs) st.

Definition assign_rule_time_elapsed (st : state) : state :=
  {| rule_status := rule_status st;
     rule_time_elapsed_bound := true;
     log := log st |}.

(** How one iteration of the loop ends. *)
Inductive flow : Type :=
  | Continue (st : state)
  | ReturnFalse (st : state)
  | Raise (e : pyexn) (st : state).

(** A message that formats [rule_time_elapsed]: reading the local before
    any assignment raises. *)
Definition format_rule_time_elapsed (st : state) (k : state → flow) : flow :=
  if rule_time_elapsed_bound st then k st
  else Raise (UnboundLocalError "rule_time_elapsed") st.

Definition can_run_rule (rule_status : gmap pykey bool) (rule_name : string)
  : bool :=
  match rule_status !! KStr rule_name with
  | None => false
  | Some b => b
  end.

Section Run.

Context (w : World) (raw_file : string) (map_data : twmap_Map).

(** The [try] block around [rule_func.evaluate()] and its handler. *)
Definition evaluate_rule (rule : BaseRuleConfig) (rule_func : BaseRule)
    (st : state) : flow :=
  let st := emit [CallEvaluate (name rule)] st in
  match evaluate rule_func with
  | EvalReturn violations =>
      let st := assign_rule_time_elapsed st in
      let success := negb (0 <? length violations)%nat in
      let st := if success then st else emit (LogViolation <$> violations) st in
      if success then
        Continue (set_status (KStr (name rule)) true
                    (emit [LogPassed (name rule)] st))
      else
        let st := set_status (KStr (name rule)) false st in
        match type rule with
        | TRequire => ReturnFalse (emit [LogFailedRequired (name rule)] st)
        | TFail => Continue (emit [LogFailedContinuing (name rule)] st)
        | TSkip => Continue (emit [LogFailedSkipping (name rule)] st)
        end
  | EvalRaise e =>
      if is_Exception e then
        let st := set_status (KStr (name rule)) false st in
        match type rule with
        | TRequire =>
            format_rule_time_elapsed st (λ st,
              ReturnFalse (emit [LogErrorRequired (name rule)] st))
        | TFail =>
            format_rule_time_elapsed st (λ st,
              Continue (emit [LogErrorFail (name rule)] st))
        | TSkip =>
            format_rule_time_elapsed st (λ st,
              Continue (emit [LogErrorSkip (name rule)] st))
        end
      else Raise e st
  end.

(** One iteration of [for rule in config['rules']]. *)
Definition process_rule (st : state) (rule : gmap string yaml) : flow :=
  match BaseRuleConfig_validate rule with
  | None =>
      let st := emit [LogValidationError] st in
      match rule !! "name" with
      | None => Raise (KeyError "name") st
      | Some v =>
          match hashable v with
          | None => Raise (TypeError "unhashable type") st
          | Some k => Continue (set_status k false st)
          end
      end
  | Some rule =>
      if negb (forallb (can_run_rule (rule_status st)) (depends_on rule)) then
        Continue (set_status (KStr (name rule)) false
                    (emit [LogSkipUnmetDependencies (name rule)] st))
      else
        let '(loaded, lg) := load_rule_from_module w (module rule) (log st) in
        let st := set_log lg st in
        match loaded with
        | Raised e => Raise e st
        | Return None => Continue (set_status (KStr (name rule)) false st)
        | Return (Some rule_module) =>
            match rule_module (class_name rule) with
            | None => Raise (TypeError "'NoneType' object is not callable") st
            | Some cls =>
                let st := emit [CallInstantiate (module rule) (class_name rule)] st in
                match cls (Some raw_file) (Some map_data) (params rule) with
                | Raised e => Raise e st
                | Return rule_func =>
                    if negb (truthy rule_func) then
                      Continue
                        (set_status (KStr (name rule)) false
                           (emit [LogRuleFunctionNotFound (name rule)
                                    (module rule)] st))
                    else evaluate_rule rule rule_func st
                end
            end
        end
  end.

(** The loop, up to the first iteration that returns or raises. *)
Fixpoint run_rules (st : state) (rules : list (gmap string yaml)) : flow :=
  match rules with
  | [] => Continue st
  | rule :: rest =>
      match process_rule st rule with
      | Continue st' => run_rules st' rest
      | stop => stop
      end
  end.

(** [execute_rules], with the locals it ends with. *)
Definition execute_rules_run (config : Config) : flow :=
  match run_rules initial_state (rules config) with
  | Continue st => Continue (emit [LogAllProcessed] st)
  | stop => stop
  end.

Definition result_of (f : flow) : py_result bool :=
  match f with
  | Continue _ => Return true
  | ReturnFalse _ => Return false
  | Raise e _ => Raised e
  end.

Definition state_of (f : flow) : state :=
  match f with
  | Continue st | ReturnFalse st | Raise _ st => st
  end.

(** [execute_rules(raw_file, map_data, config)] *)
Definition execute_rules (config : Config) : py_result bool :=
  result_of (execute_rules_run config).

(** The descriptors of a list were all processed, each iteration reaching the
    next one: the loop ran from [st] to [st'] with no return and no raise. *)
Inductive processed : state → list (gmap string yaml) → state → Prop :=
  | processed_nil st : processed st [] st
  | processed_cons st rule st' rest st'' :
      process_rule st rule = Continue st' →
      processed st' rest st'' →
      processed st (rule :: rest) st''.

End Run.

(** The status-table key an iteration writes: [rule['name']] of the raw
    mapping (for a valid descriptor that is its [name]). *)
Definition rule_key (rule : gmap string yaml) : option pykey :=
  rule !! "name" ≫= hashable.

End Engine.

(** ** Documentation generation *)

Module Docs.

Record rule_doc : Type := {
  doc_name : string;
  doc_desc : option string;
  doc_explain : string;
  doc_required : bool;
}.

(** The loop of [generate_rules_file], with [rule_evaluation] as the
    accumulator. *)
Fixpoint collect (w : World) (rules : list (gmap string yaml))
    (rule_evaluation : list rule_doc) (lg : list event)
  : py_result (list rule_doc) * list event :=
  match rules with
  | [] => (Return rule_evaluation, lg)
  | rule :: rest =>
      match BaseRuleConfig_validate rule with
      | None => collect w rest rule_evaluation (lg ++ [LogValidationError])
      | Some rule =>
          let '(loaded, lg) := load_rule_from_module w (module rule) lg in
          match loaded with
          | Raised e => (Raised e, lg)
          | Return None => collect w rest rule_evaluation lg
          | Return (Some rule_module) =>
              match rule_module (class_name rule) with
              | None =>
                  (Raised (TypeError "'NoneType' object is not callable"), lg)
              | Some cls =>
                  let lg := lg ++ [CallInstantiate (module rule)
                                     (class_name rule)] in
                  match cls None None (params rule) with
                  | Raised e => (Raised e, lg)
                  | Return rule_func =>
                      if negb (truthy rule_func) then
                        collect w rest rule_evaluation lg
                      else
                        let lg := lg ++ [CallExplain (name rule)] in
                        match explain rule_func with
                        | Raised e => (Raised e, lg)
                        | Return text =>
                            collect w rest
                              (rule_evaluation ++
                                 [{| doc_name := name rule;
                                     doc_desc := description rule;
                                     doc_explain := text;
                                     doc_required :=
                                       bool_decide (type rule = TRequire) |}])
                              lg
                        end
                  end
              end
          end
      end
  end.

Definition generate_rules_file (w : World) (fs : FileSystem)
  : py_result (list rule_doc) * list event :=
  match Loader.load_all_rules fs "map_rules/" [] with
  | Raised e => (Raised e, [])
  | Return config => collect w (rules config) [] []
  end.

End Docs.

(** ** A small rule set to run the engine on *)

Module Demo.

Definition instance_of (r : eval_result) : BaseRule :=
  {| evaluate := r; explain := Return "what the rule checks";
     truthy := true |}.

(** A module [maps_workflow.checks] with three rule classes. *)
Definition checks : py_module := λ cls,
  if decide (cls = "Pass") then
    Some (λ _ _ _, Return (instance_of (EvalReturn [])))
  else if decide (cls = "Violate") then
    Some (λ _ _ _, Return (instance_of (EvalReturn ["spawn missing"])))
  else if decide (cls = "Boom") then
    Some (λ _ _ _, Return (instance_of (EvalRaise (OtherException "boom"))))
  else None.

Definition world : World :=
  {| import_module := λ m,
       if decide (m = "maps_workflow.checks") then Imported checks
       else ModuleNotFoundError |}.

Definition the_map : twmap_Map := {| map_handle := 0 |}.

(** A raw mapping as the YAML loader returns it. *)
Definition entry (n cls policy : string) (deps : list string)
  : gmap string yaml :=
  {[ "name" := YStr n; "module" := YStr "checks"; "class_name" := YStr cls;
     "type" := YStr policy; "depends_on" := YSeq (YStr <$> deps) ]}.

(** The same without [name]. *)
Definition nameless (cls policy : string) : gmap string yaml :=
  {[ "module" := YStr "checks"; "class_name" := YStr cls;
     "type" := YStr policy ]}.

Definition run (rs : list (gmap string yaml)) : Engine.flow :=
  Engine.execute_rules_run world "a.map" the_map {| rules := rs |}.

(** A directory [map_rules/] with two declaration files, a file of another
    kind, and a listing that is not in order. *)
Definition fs : FileSystem :=
  {| listdir := λ d,
       if decide (d = "map_rules/")
       then Return ["b_extra.yaml"; "notes.txt"; "a_base.yaml"]
       else Raised (OtherException "FileNotFoundError");
     yaml_load := λ p,
       if decide (p = "map_rules/a_base.yaml") then
         Return (DocMapping (Some [entry "A" "Pass" "require" []]))
       else if decide (p = "map_rules/b_extra.yaml") then
         Return (DocMapping (Some [entry "B" "Violate" "fail" ["A"];
                                   entry "C" "Pass" "skip" ["B"]]))
       else Raised (OtherException "cannot parse") |}.

(** A directory whose only declaration names a class that the module does
    not have. *)
Definition fs_unknown_class : FileSystem :=
  {| listdir := λ d, Return ["rules.yaml"];
     yaml_load := λ p,
       Return (DocMapping (Some [entry "A" "Pass" "fail" [];
                                 entry "B" "Nope" "fail" [];
                                 entry "C" "Pass" "fail" []])) |}.

Definition rules_of (filename : string) : list (gmap string yaml) :=
  if decide (filename = "a_base.yaml") then [entry "A" "Pass" "require" []]
  else if decide (filename = "b_extra.yaml") then
    [entry "B" "Violate" "fail" ["A"]; entry "C" "Pass" "skip" ["B"]]
  else [].

End Demo.

(** ** The command line *)

Module Main.

(** [c in s] for a one-character [c] *)
Fixpoint contains (c : ascii) (s : string) : bool :=
  match s with
  | "" => false
  | String a s' => if decide (a = c) then true else contains c s'
  end.

(** [s.split(sep)] for a one-character separator: the fields between the
    separators, empty ones kept, so that the result is never empty. *)
Fixpoint split (sep : ascii) (s : string) : list string :=
  match s with
  | "" => [""]
  | String a s' =>
      if decide (a = sep) then "" :: split sep s'
      else match split sep s' with
           | [] => [String a ""]
           | field :: fields => String a field :: fields
           end
  end.

(** [sep.join(fields)] for a one-character separator *)
Fixpoint join (sep : ascii) (fields : list string) : string :=
  match fields with
  | [] => ""
  | [field] => field
  | field :: rest => field +:+ String sep (join sep rest)
  end.

Definition comma : ascii := ","%char.

(** The list [excluded] that the script computes from [args.skip]. *)
Definition excluded_of (skip : option string) : list string :=
  match skip with
  | None => []
  | Some skip =>
      if decide (skip = "") then []
      else if contains comma skip then split comma skip
      else [skip]
  end.

(** The parsed arguments. [arg_map] is the path given by [--map] or by
    [INPUT_MAP]; a run given neither is not modelled. *)
Record Args : Type := {
  arg_map : string;
  arg_skip : option string;
  arg_ci : option string;
}.

(** What the script runs against: the rule modules, the declaration files
    and the map parser [twmap.Map(path)]. *)
Record Env : Type := {
  env_world : World;
  env_fs : FileSystem;
  twmap_Map_new : string → py_result twmap_Map;
}.

Inductive main_event : Type :=
  | LogProcessingFile (path : string)
  | CallTwmapMap (path : string)
  | FromEngine (ev : event)
  | LogWorkflowCompleted
  | LogWorkflowFailed.

(** The body under [if __name__ == '__main__']: how it ends and what it
    reported. *)
Definition main (env : Env) (args : Args)
  : py_result unit * list main_event :=
  let excluded := excluded_of (arg_skip args) in
  match Loader.load_all_rules (env_fs env) "map_rules/" excluded with
  | Raised e => (Raised e, [])
  | Return config =>
      let lg := [LogProcessingFile (arg_map args);
                 CallTwmapMap (arg_map args)] in
      match twmap_Map_new env (arg_map args) with
      | Raised e => (Raised e, lg)
      | Return tw_map =>
          let f := Engine.execute_rules_run (env_world env) (arg_map args)
                     tw_map config in
          let lg := lg ++ (FromEngine <$> Engine.log (Engine.state_of f)) in
          match Engine.result_of f with
          | Raised e => (Raised e, lg)
          | Return result =>
              (Return tt,
               lg ++ [if result then LogWorkflowCompleted
                      else LogWorkflowFailed])
          end
      end
  end.

End Main.

(** ** Notions the properties are stated with *)

(** The calls of [evaluate] in a report. *)
Definition is_CallEvaluate (ev : event) : bool :=
  match ev with
  | CallEvaluate _ => true
  | _ => false
  end.

Definition evaluate_calls (lg : list event) : nat :=
  length (filter (λ ev, is_CallEvaluate ev = true) lg).

(** The record that documentation mode makes of a raw mapping, when it makes
    one: the mapping validates, its reference resolves without an artifact,
    and [explain] returns. *)
Definition documented (w : World) (rule : gmap string yaml)
  : option Docs.rule_doc :=
  cfg ← BaseRuleConfig_validate rule;
  match resolve w None None cfg with
  | Resolved rule_func =>
      match explain rule_func with
      | Return text =>
          Some {| Docs.doc_name := name cfg;
                  Docs.doc_desc := description cfg;
                  Docs.doc_explain := text;
                  Docs.doc_required := bool_decide (type cfg = TRequire) |}
      | Raised _ => None
      end
  | _ => None
  end.

(** The raw mappings over which documentation mode does not raise: those
    that are invalid, whose module is not found, whose instance is not
    truthy, or that resolve and explain themselves. *)
Definition documentable (w : World) (rule : gmap string yaml) : bool :=
  match BaseRuleConfig_validate rule with
  | None => true
  | Some cfg =>
      match resolve w None None cfg with
      | ModuleMissing | NotTruthy _ => true
      | Resolved rule_func =>
          match explain rule_func with
          | Return _ => true
          | Raised _ => false
          end
      | ImportFailed _ | ClassMissing | ConstructFailed _ => false
      end
  end.

(** A raw mapping that passes: it validates, its reference resolves with
    the artifact, and its evaluation returns no violation. *)
Definition passes (w : World) (raw_file : string) (map_data : twmap_Map)
    (rule : gmap string yaml) : option BaseRuleConfig :=
  cfg ← BaseRuleConfig_validate rule;
  match resolve w (Some raw_file) (Some map_data) cfg with
  | Resolved rule_func =>
      match evaluate rule_func with
      | EvalReturn [] => Some cfg
      | _ => None
      end
  | _ => None
  end.

(** A sequence in which every mapping passes and depends only on names of
    mappings before it ([seen] holds the names so far). *)
Fixpoint all_pass (w : World) (raw_file : string) (map_data : twmap_Map)
    (seen : list string) (rules : list (gmap string yaml)) : bool :=
  match rules with
  | [] => true
  | rule :: rest =>
      match passes w raw_file map_data rule with
      | Some cfg =>
          forallb (λ dep, bool_decide (dep ∈ seen)) (depends_on cfg)
          && all_pass w raw_file map_data (name cfg :: seen) rest
      | None => false
      end
  end.


(** ** Rule classes for the edges of the engine *)

Module Edge.

(** A module [maps_workflow.edge]: an instance that is not truthy, a
    constructor that raises, an evaluation that leaves by [SystemExit], and
    an [explain] that raises. *)
Definition edge : py_module := λ cls,
  if decide (cls = "Falsy") then
    Some (λ _ _ _, Return {| evaluate := EvalReturn [];
                             explain := Return "never shown";
                             truthy := false |})
  else if decide (cls = "BadInit") then
    Some (λ _ _ _, Raised (OtherException "bad params"))
  else if decide (cls = "Exit") then
    Some (λ _ _ _, Return (Demo.instance_of
                             (EvalRaise (NonException "SystemExit"))))
  else if decide (cls = "Mute") then
    Some (λ _ _ _, Return {| evaluate := EvalReturn [];
                             explain := Raised (OtherException "no text");
                             truthy := true |})
  else None.

Definition world : World :=
  {| import_module := λ m,
       if decide (m = "maps_workflow.checks") then Imported Demo.checks
       else if decide (m = "maps_workflow.edge") then Imported edge
       else if decide (m = "maps_workflow.broken") then
         ImportRaise (OtherException "SyntaxError")
       else ModuleNotFoundError |}.

Definition entry (n m cls policy : string) (deps : list string)
  : gmap string yaml :=
  {[ "name" := YStr n; "module" := YStr m; "class_name" := YStr cls;
     "type" := YStr policy; "depends_on" := YSeq (YStr <$> deps) ]}.

(** A mapping with a name and a policy that is none of the three. *)
Definition invalid_entry (n : string) : gmap string yaml :=
  {[ "name" := YStr n; "module" := YStr "checks"; "class_name" := YStr "Pass";
     "type" := YStr "warn" ]}.

(** The directory of [Demo.fs] with other content in the file that is not a
    declaration file, and listed in another order. *)
Definition fs_relisted : FileSystem :=
  {| listdir := λ d,
       if decide (d = "map_rules/")
       then Return ["a_base.yaml"; "b_extra.yaml"; "notes.txt"]
       else Raised (OtherException "FileNotFoundError");
     yaml_load := λ p,
       if decide (p = "map_rules/notes.txt") then Return DocOther
       else yaml_load Demo.fs p |}.

(** A directory with a declaration file whose document has no [rules]. *)
Definition fs_broken : FileSystem :=
  {| listdir := λ d, Return ["broken.yaml"; "a_base.yaml"];
     yaml_load := λ p,
       if decide (p = "map_rules/broken.yaml") then Return (DocMapping None)
       else yaml_load Demo.fs p |}.

Definition env : Main.Env :=
  {| Main.env_world := Demo.world; Main.env_fs := Demo.fs;
     Main.twmap_Map_new := λ _, Return Demo.the_map |}.

End Edge.

(** * Properties *)

Import Engine.

(** ** The run loop *)

Section EngineFacts.

Context (w : World) (raw_file : string) (map_data : twmap_Map).

#[local] Abbreviation process_rule := (process_rule w raw_file map_data).
#[local] Abbreviation run_rules := (run_rules w raw_file map_data).
#[local] Abbreviation processed := (processed w raw_file map_data).
#[local] Abbreviation execute_rules_run := (execute_rules_run w raw_file map_data).
#[local] Abbreviation execute_rules := (execute_rules w raw_file map_data).

Lemma run_rules_app st pre rest :
  run_rules st (pre ++ rest) =
  match run_rules st pre with
  | Continue st' => run_rules st' rest
  | stop => stop
  end.
Proof.
  revert st. induction pre as [|rule pre IH]; intros st; simpl; [done|].
  destruct (process_rule st rule); auto.
Qed.

Lemma processed_run_rules st rules st' :
  processed st rules st' ↔ run_rules st rules = Continue st'.
Proof.
  split.
  - induction 1 as [|? ? ? ? ? Hstep _ IH]; simpl; [done|]. by rewrite Hstep.
  - revert st. induction rules as [|rule rest IH]; intros st; simpl.
    + intros [= ->]. constructor.
    + destruct (process_rule st rule) as [st1| |] eqn:Hstep; try done.
      intros Hrest. econstructor; eauto.
Qed.


(** A valid descriptor whose gate is open and whose reference resolves goes
    into the [try] block. *)
Lemma process_rule_resolved st rule cfg rule_func :
  BaseRuleConfig_validate rule = Some cfg →
  forallb (can_run_rule (rule_status st)) (depends_on cfg) = true →
  resolve w (Some raw_file) (Some map_data) cfg = Resolved rule_func →
  process_rule st rule =
  evaluate_rule cfg rule_func
    (emit [CallInstantiate (module cfg) (class_name cfg)] st).
Proof.
  intros Hv Hgate Hres. unfold Engine.process_rule, resolve in *.
  rewrite Hv, Hgate. simpl. unfold load_rule_from_module.
  destruct (import_module w _) as [m| |]; try done.
  destruct (m (class_name cfg)) as [cls|]; try done.
  destruct (cls _ _ _) as [i|]; try done.
  destruct (truthy i) eqn:Ht; try done. by simplify_eq/=.
Qed.

Lemma gate_closed (status : gmap pykey bool) deps dep :
  dep ∈ deps →
  status !! KStr dep = None ∨ status !! KStr dep = Some false →
  forallb (can_run_rule status) deps = false.
Proof.
  intros Hin Hdep. apply not_true_is_false. intros Hall.
  rewrite forallb_forall in Hall. apply list_elem_of_In, Hall in Hin.
  unfold can_run_rule in Hin. by destruct Hdep as [Hd|Hd]; rewrite Hd in Hin.
Qed.

Lemma nonempty_length {A} (l : list A) : l ≠ [] → (0 <? length l)%nat = true.
Proof. by destruct l. Qed.

(** The [try] block when [evaluate] returns violations. *)
Lemma evaluate_rule_violations st cfg rule_func violations :
  evaluate rule_func = EvalReturn violations →
  violations ≠ [] →
  let st' :=
    set_status (KStr (name cfg)) false
      (emit (LogViolation <$> violations)
         (assign_rule_time_elapsed (emit [CallEvaluate (name cfg)] st))) in
  evaluate_rule cfg rule_func st =
  match type cfg with
  | TRequire => ReturnFalse (emit [LogFailedRequired (name cfg)] st')
  | TFail => Continue (emit [LogFailedContinuing (name cfg)] st')
  | TSkip => Continue (emit [LogFailedSkipping (name cfg)] st')
  end.
Proof.
  intros Hev Hne. unfold evaluate_rule. rewrite Hev.
  by rewrite (nonempty_length _ Hne).
Qed.

(** The spec-modelled validation keeps the raw [name]. *)
Lemma validate_name rule cfg :
  BaseRuleConfig_validate rule = Some cfg →
  rule !! "name" = Some (YStr (name cfg)).
Proof.
  unfold BaseRuleConfig_validate. intros Hv.
  destruct (rule !! "name") as [[]|]; simplify_eq/=.
  repeat (case_match; simplify_eq/=).
  all: repeat match goal with
         | H : _ ≫= _ = Some _ |- _ => apply bind_Some in H as (? & ? & ?)
         end; by simplify_eq/=.
Qed.

Lemma validate_rule_key rule cfg :
  BaseRuleConfig_validate rule = Some cfg →
  rule_key rule = Some (KStr (name cfg)).
Proof. intros Hv. unfold rule_key. by rewrite (validate_name _ _ Hv). Qed.

(** Whatever way an iteration ends, it has written at most one entry, under
    the key of its descriptor, and removed none. *)
Lemma process_rule_status st rule :
  rule_status (state_of (process_rule st rule)) = rule_status st
  ∨ ∃ k b, rule_key rule = Some k
      ∧ rule_status (state_of (process_rule st rule))
        = <[k := b]> (rule_status st).
Proof.
  unfold Engine.process_rule.
  destruct (BaseRuleConfig_validate rule) as [cfg|] eqn:Hv.
  - pose proof (validate_rule_key _ _ Hv) as Hk.
    unfold evaluate_rule, format_rule_time_elapsed, load_rule_from_module.
    repeat (case_match; simplify_eq/=); eauto.
  - unfold rule_key. repeat (case_match; simplify_eq/=); eauto.
Qed.

(** An iteration that goes on to the next descriptor has recorded an outcome
    under the key of its descriptor. *)
Lemma process_rule_records st rule st' :
  process_rule st rule = Continue st' →
  ∃ k b, rule_key rule = Some k
    ∧ rule_status st' = <[k := b]> (rule_status st).
Proof.
  unfold Engine.process_rule.
  destruct (BaseRuleConfig_validate rule) as [cfg|] eqn:Hv.
  - pose proof (validate_rule_key _ _ Hv) as Hk.
    unfold evaluate_rule, format_rule_time_elapsed, load_rule_from_module.
    repeat (case_match; simplify_eq/=); intros; simplify_eq/=; eauto.
  - unfold rule_key.
    repeat (case_match; simplify_eq/=); intros; simplify_eq/=; eauto.
Qed.

Lemma processed_other_keys st rules st' k :
  processed st rules st' →
  Forall (λ r, rule_key r ≠ Some k) rules →
  rule_status st' !! k = rule_status st !! k.
Proof.
  induction 1 as [|st rule st1 rest st2 Hstep _ IH]; [done|].
  intros [Hrule Hrest]%Forall_cons. rewrite IH by done.
  apply process_rule_records in Hstep as (k' & b & Hk & ->).
  apply lookup_insert_ne. congruence.
Qed.


(** ** The claims on the engine *)

(** C1: if the descriptors before a [require] descriptor were processed, and
    that descriptor validates, passes its dependency gate, resolves, and its
    evaluation returns at least one violation, then [execute_rules] records
    its status as false and returns [False]; the final status table is the
    one before the descriptor with that single entry written, and the report
    ends with the required-failure message, whatever descriptors follow. *)
Theorem require_violation_aborts pre rule post st cfg rule_func violations :
  processed initial_state pre st →
  BaseRuleConfig_validate rule = Some cfg →
  type cfg = TRequire →
  forallb (can_run_rule (rule_status st)) (depends_on cfg) = true →
  resolve w (Some raw_file) (Some map_data) cfg = Resolved rule_func →
  evaluate rule_func = EvalReturn violations →
  violations ≠ [] →
  ∃ st',
    execute_rules_run {| rules := pre ++ rule :: post |} = ReturnFalse st'
    ∧ execute_rules {| rules := pre ++ rule :: post |} = Return false
    ∧ rule_status st' = <[KStr (name cfg) := false]> (rule_status st)
    ∧ log st' =
        log st
        ++ [CallInstantiate (module cfg) (class_name cfg);
            CallEvaluate (name cfg)]
        ++ (LogViolation <$> violations)
        ++ [LogFailedRequired (name cfg)].
Proof.
  intros Hpre Hv Hty Hgate Hres Hev Hne.
  apply processed_run_rules in Hpre.
  assert (run_rules initial_state (pre ++ rule :: post) =
          ReturnFalse
            (emit [LogFailedRequired (name cfg)]
               (set_status (KStr (name cfg)) false
                  (emit (LogViolation <$> violations)
                     (assign_rule_time_elapsed
                        (emit [CallEvaluate (name cfg)]
                           (emit [CallInstantiate (module cfg)
                                    (class_name cfg)] st))))))) as Hrun.
  { rewrite run_rules_app, Hpre. simpl.
    rewrite (process_rule_resolved _ _ _ _ Hv Hgate Hres).
    rewrite (evaluate_rule_violations _ _ _ _ Hev Hne). by rewrite Hty. }
  eexists. unfold Engine.execute_rules, Engine.execute_rules_run. simpl.
  rewrite Hrun. split_and!; try done.
  simpl. by rewrite <-!app_assoc.
Qed.

(** C2: a valid descriptor with a dependency that is absent from the status
    table, or present with value false, is not evaluated: the iteration only
    reports the skip, records the status false under the descriptor's name,
    and the loop goes on with the next descriptor. *)
Theorem unmet_dependency_blocks st rule rest cfg dep :
  BaseRuleConfig_validate rule = Some cfg →
  dep ∈ depends_on cfg →
  rule_status st !! KStr dep = None ∨ rule_status st !! KStr dep = Some false →
  ∃ st',
    process_rule st rule = Continue st'
    ∧ rule_status st' = <[KStr (name cfg) := false]> (rule_status st)
    ∧ log st' = log st ++ [LogSkipUnmetDependencies (name cfg)]
    ∧ (∀ n, CallEvaluate n ∉ drop (length (log st)) (log st'))
    ∧ run_rules st (rule :: rest) = run_rules st' rest.
Proof.
  intros Hv Hin Hdep.
  assert (process_rule st rule =
          Continue (set_status (KStr (name cfg)) false
                      (emit [LogSkipUnmetDependencies (name cfg)] st))) as Hs.
  { unfold Engine.process_rule.
    by rewrite Hv, (gate_closed _ _ _ Hin Hdep). }
  eexists. split; [exact Hs|]. simpl. rewrite Hs. split_and!; try done.
  intros n. rewrite drop_app_length. by intros [=]%list_elem_of_singleton.
Qed.

(** C6: a valid descriptor of policy [fail] or [skip] whose gate is open,
    which resolves, and whose evaluation returns at least one violation, has
    its status recorded as false and the loop goes on with the next
    descriptor. *)
Theorem fail_or_skip_violation_continues st rule rest cfg rule_func violations :
  BaseRuleConfig_validate rule = Some cfg →
  type cfg = TFail ∨ type cfg = TSkip →
  forallb (can_run_rule (rule_status st)) (depends_on cfg) = true →
  resolve w (Some raw_file) (Some map_data) cfg = Resolved rule_func →
  evaluate rule_func = EvalReturn violations →
  violations ≠ [] →
  ∃ st',
    process_rule st rule = Continue st'
    ∧ rule_status st' = <[KStr (name cfg) := false]> (rule_status st)
    ∧ rule_status st' !! KStr (name cfg) = Some false
    ∧ run_rules st (rule :: rest) = run_rules st' rest.
Proof.
  intros Hv Hty Hgate Hres Hev Hne.
  pose proof (process_rule_resolved st _ _ _ Hv Hgate Hres) as Hs.
  rewrite (evaluate_rule_violations _ _ _ _ Hev Hne) in Hs.
  destruct Hty as [Hty|Hty]; rewrite Hty in Hs;
    (eexists; split; [exact Hs|]); simpl; rewrite Hs;
    split_and!; try done; apply lookup_insert_eq.
Qed.

(** A valid descriptor whose gate is open, which resolves, and whose
    evaluation returns no violation has its status recorded as true and the
    loop goes on. *)
Lemma zero_violations_recorded_true st rule rest cfg rule_func :
  BaseRuleConfig_validate rule = Some cfg →
  forallb (can_run_rule (rule_status st)) (depends_on cfg) = true →
  resolve w (Some raw_file) (Some map_data) cfg = Resolved rule_func →
  evaluate rule_func = EvalReturn [] →
  ∃ st',
    process_rule st rule = Continue st'
    ∧ rule_status st' = <[KStr (name cfg) := true]> (rule_status st)
    ∧ rule_status st' !! KStr (name cfg) = Some true
    ∧ run_rules st (rule :: rest) = run_rules st' rest.
Proof.
  intros Hv Hgate Hres Hev.
  pose proof (process_rule_resolved st _ _ _ Hv Hgate Hres) as Hs.
  unfold evaluate_rule in Hs. rewrite Hev in Hs. simpl in Hs.
  eexists. split; [exact Hs|]. simpl. rewrite Hs.
  split_and!; try done. apply lookup_insert_eq.
Qed.


(** ** The paths on which an iteration raises *)

(** Validation needs [name]. *)
Lemma nameless_invalid rule :
  rule !! "name" = None → BaseRuleConfig_validate rule = None.
Proof. intros Hn. unfold BaseRuleConfig_validate. by rewrite Hn. Qed.

(** An invalid mapping with a hashable [name] is recorded as failed under it
    and the loop goes on. *)
Lemma invalid_named_recorded st rule v k :
  BaseRuleConfig_validate rule = None →
  rule !! "name" = Some v →
  hashable v = Some k →
  process_rule st rule
  = Continue (set_status k false (emit [LogValidationError] st)).
Proof.
  intros Hv Hn Hk. unfold Engine.process_rule. by rewrite Hv, Hn, Hk.
Qed.

(** An invalid mapping without [name]: the handler's [rule['name']] raises. *)
Lemma invalid_nameless_raises st rule :
  rule !! "name" = None →
  process_rule st rule
  = Raise (KeyError "name") (emit [LogValidationError] st).
Proof.
  intros Hn. unfold Engine.process_rule.
  by rewrite (nameless_invalid _ Hn), Hn.
Qed.

(** A module that cannot be found is recorded as a failed rule. *)
Lemma module_missing_recorded st rule cfg :
  BaseRuleConfig_validate rule = Some cfg →
  forallb (can_run_rule (rule_status st)) (depends_on cfg) = true →
  resolve w (Some raw_file) (Some map_data) cfg = ModuleMissing →
  process_rule st rule
  = Continue (set_status (KStr (name cfg)) false
                (emit [LogModuleNotFound (module cfg)] st)).
Proof.
  intros Hv Hgate Hres. unfold Engine.process_rule, resolve in *.
  rewrite Hv, Hgate. simpl. unfold load_rule_from_module.
  repeat (case_match; simplify_eq/=); done.
Qed.

(** A class that the module does not have: [getattr] gives [None], and the
    call of [None] raises before the test that would report it. *)
Lemma class_missing_raises st rule cfg :
  BaseRuleConfig_validate rule = Some cfg →
  forallb (can_run_rule (rule_status st)) (depends_on cfg) = true →
  resolve w (Some raw_file) (Some map_data) cfg = ClassMissing →
  process_rule st rule
  = Raise (TypeError "'NoneType' object is not callable") st.
Proof.
  intros Hv Hgate Hres. unfold Engine.process_rule, resolve in *.
  rewrite Hv, Hgate. simpl. unfold load_rule_from_module.
  repeat (case_match; simplify_eq/=); done.
Qed.

(** An evaluation that raises when no evaluation has returned before: the
    handler records the status, then its message reads
    [rule_time_elapsed], which is unbound, under each of the policies. *)
Lemma evaluation_error_unbound st rule cfg rule_func e :
  BaseRuleConfig_validate rule = Some cfg →
  forallb (can_run_rule (rule_status st)) (depends_on cfg) = true →
  resolve w (Some raw_file) (Some map_data) cfg = Resolved rule_func →
  evaluate rule_func = EvalRaise e →
  is_Exception e = true →
  rule_time_elapsed_bound st = false →
  process_rule st rule
  = Raise (UnboundLocalError "rule_time_elapsed")
      (set_status (KStr (name cfg)) false
         (emit [CallInstantiate (module cfg) (class_name cfg);
                CallEvaluate (name cfg)] st)).
Proof.
  intros Hv Hgate Hres Hev Hexn Hunbound.
  rewrite (process_rule_resolved _ _ _ _ Hv Hgate Hres).
  unfold evaluate_rule, format_rule_time_elapsed. rewrite Hev, Hexn. simpl.
  rewrite Hunbound. unfold emit, set_status, set_log. simpl.
  rewrite <-app_assoc. by destruct (type cfg).
Qed.

(** The same once an earlier evaluation has returned: the three-way
    dispatch of the violation path. *)
Lemma evaluation_error_bound st rule cfg rule_func e :
  BaseRuleConfig_validate rule = Some cfg →
  forallb (can_run_rule (rule_status st)) (depends_on cfg) = true →
  resolve w (Some raw_file) (Some map_data) cfg = Resolved rule_func →
  evaluate rule_func = EvalRaise e →
  is_Exception e = true →
  rule_time_elapsed_bound st = true →
  let st' :=
    set_status (KStr (name cfg)) false
      (emit [CallInstantiate (module cfg) (class_name cfg);
             CallEvaluate (name cfg)] st) in
  process_rule st rule
  = match type cfg with
    | TRequire => ReturnFalse (emit [LogErrorRequired (name cfg)] st')
    | TFail => Continue (emit [LogErrorFail (name cfg)] st')
    | TSkip => Continue (emit [LogErrorSkip (name cfg)] st')
    end.
Proof.
  intros Hv Hgate Hres Hev Hexn Hbound.
  rewrite (process_rule_resolved _ _ _ _ Hv Hgate Hres).
  unfold evaluate_rule, format_rule_time_elapsed. rewrite Hev, Hexn. simpl.
  rewrite Hbound. unfold emit, set_status, set_log. simpl.
  rewrite <-!app_assoc. by destruct (type cfg).
Qed.

(** [execute_rules] returns [False] only from a [require] descriptor that was
    evaluated. *)
Lemma process_rule_returns_false st rule st' :
  process_rule st rule = ReturnFalse st' →
  ∃ cfg rule_func,
    BaseRuleConfig_validate rule = Some cfg
    ∧ type cfg = TRequire
    ∧ resolve w (Some raw_file) (Some map_data) cfg = Resolved rule_func
    ∧ rule_status st' !! KStr (name cfg) = Some false.
Proof.
  unfold Engine.process_rule, resolve, load_rule_from_module, evaluate_rule,
    format_rule_time_elapsed.
  destruct (BaseRuleConfig_validate rule) as [cfg|]; [|by repeat case_match].
  intros Hs. exists cfg.
  repeat (case_match; simplify_eq/=);
    (eexists; split_and!; [done..|apply lookup_insert_eq]).
Qed.

End EngineFacts.

(** ** The string tests of the loader *)

Lemma String_app_cons a s t : String a s +:+ t = String a (s +:+ t).
Proof. reflexivity. Qed.
Lemma String_app_nil t : "" +:+ t = t.
Proof. reflexivity. Qed.

Lemma startswith_spec s p : startswith s p = true ↔ ∃ q, s = p +:+ q.
Proof.
  unfold startswith. revert s. induction p as [|a p IH]; intros s; simpl.
  - split; [|by destruct s]. intros _. by exists s.
  - destruct s as [|b s]; simpl.
    + split; [done|]. by intros [q [=]].
    + destruct (Ascii.ascii_dec a b) as [->|Hne].
      * rewrite IH. split; intros [q Hq]; exists q.
        -- by rewrite String_app_cons, Hq.
        -- rewrite String_app_cons in Hq. by simplify_eq.
      * split; [done|]. intros [q Hq]. rewrite String_app_cons in Hq. by simplify_eq.
Qed.

Lemma length_app_string q p :
  String.length (q +:+ p) = String.length q + String.length p.
Proof. induction q as [|a q IH]; [done|]. rewrite String_app_cons. simpl. by rewrite IH. Qed.

Lemma substring_all p : String.substring 0 (String.length p) p = p.
Proof. induction p as [|a p IH]; [done|]. simpl. by rewrite IH. Qed.

Lemma substring_skip q n p :
  String.substring (String.length q) n (q +:+ p) = String.substring 0 n p.
Proof. induction q as [|a q IH]; [done|]. rewrite String_app_cons. simpl. apply IH. Qed.

Lemma substring_split n s :
  (n ≤ String.length s)%nat →
  s = String.substring 0 n s +:+ String.substring n (String.length s - n) s.
Proof.
  revert n. induction s as [|a s IH]; intros n Hn; simpl in *.
  - by replace n with 0 by lia.
  - destruct n as [|n]; simpl.
    + rewrite String_app_nil. by rewrite substring_all.
    + rewrite String_app_cons. f_equal. apply IH. lia.
Qed.

Lemma endswith_spec s p : endswith s p = true ↔ ∃ q, s = q +:+ p.
Proof.
  unfold endswith. rewrite andb_true_iff, Nat.leb_le, bool_decide_eq_true. split.
  - intros [Hlen Hsub].
    exists (String.substring 0 (String.length s - String.length p) s).
    rewrite (substring_split (String.length s - String.length p) s) at 1 by lia.
    f_equal. rewrite <-Hsub at 3. f_equal. lia.
  - intros [q ->]. rewrite length_app_string. split; [lia|].
    replace (String.length q + String.length p - String.length p)
      with (String.length q) by lia.
    rewrite substring_skip. apply substring_all.
Qed.

(** ** The loader *)

Section LoaderFacts.

Import Loader.

Lemma sorted_Sorted l : Sorted String.le (sorted l).
Proof. apply (Sorted_merge_sort String.le). Qed.

Lemma sorted_Permutation l : sorted l ≡ₚ l.
Proof. apply merge_sort_Permutation. Qed.

(** [sorted l] is the only ascending arrangement of [l]. *)
Lemma sorted_unique l l' : Sorted String.le l' → l' ≡ₚ l → l' = sorted l.
Proof.
  intros Hs Hp. apply (Sorted_unique String.le); [done|apply sorted_Sorted|].
  by rewrite sorted_Permutation.
Qed.

Lemma StronglySorted_filter {A} (R : relation A) (P : A → Prop)
    `{!∀ x, Decision (P x)} l :
  StronglySorted R l → StronglySorted R (filter P l).
Proof.
  induction 1 as [|x l _ IH Hx]; [constructor|].
  rewrite filter_cons. case_decide; [|done].
  constructor; [done|]. rewrite Forall_forall in Hx |- *.
  intros y [_ Hy]%list_elem_of_filter. auto.
Qed.

Context (fs : FileSystem) (directory : string) (exclude : list string).
Context (rules_of : string → list (gmap string yaml)).

(** The loop over any list of names whose declaration files load. *)
Lemma load_files_concat filenames all_rules :
  (∀ f, f ∈ filenames → declaration_file exclude f = true →
        yaml_load fs (os_path_join directory f)
        = Return (DocMapping (Some (rules_of f)))) →
  load_files fs directory exclude filenames all_rules =
  Return (all_rules
          ++ concat (rules_of <$>
                       filter (λ f, declaration_file exclude f = true)
                         filenames)).
Proof.
  revert all_rules.
  induction filenames as [|f rest IH]; intros all_rules Hload; simpl.
  { by rewrite app_nil_r. }
  assert (∀ acc, load_files fs directory exclude rest acc =
            Return (acc ++ concat (rules_of <$>
                      filter (λ f, declaration_file exclude f = true) rest)))
    as IH'.
  { intros acc. apply IH. intros f' Hf'. apply Hload. by right. }
  rewrite filter_cons.
  destruct (decide (declaration_file exclude f = true)) as [Hd|Hd].
  - pose proof Hd as Hd'. unfold declaration_file in Hd'.
    apply andb_true_iff in Hd' as [Hext Hex%negb_true_iff].
    rewrite Hex, Hext. unfold load_rules_from_file.
    rewrite Hload by (done || by left). simpl.
    rewrite IH'. by rewrite <-app_assoc.
  - unfold declaration_file in Hd.
    destruct (existsb _ exclude); [apply IH'|].
    destruct (endswith f ".yaml"); [by destruct Hd|apply IH'].
Qed.

(** C8: when the directory lists [names] and each of its declaration files
    that is not excluded loads as a mapping with a rule list, the loader
    returns the concatenation of those rule lists over the declaration files
    (names ending in the extension and starting with no excluded prefix)
    taken in ascending order of file name. *)
Theorem load_all_rules_concatenates names files :
  listdir fs directory = Return names →
  (∀ f, f ∈ names → declaration_file exclude f = true →
        yaml_load fs (os_path_join directory f)
        = Return (DocMapping (Some (rules_of f)))) →
  Sorted String.le files →
  files ≡ₚ filter (λ f, declaration_file exclude f = true) names →
  load_all_rules fs directory exclude
  = Return {| rules := concat (rules_of <$> files) |}.
Proof.
  intros Hls Hload Hsorted Hperm. unfold load_all_rules. rewrite Hls.
  rewrite load_files_concat.
  - assert (files =
            filter (λ f, declaration_file exclude f = true) (sorted names))
      as ->; [|done].
    apply (Sorted_unique String.le); [done| |].
    + apply StronglySorted_Sorted, StronglySorted_filter.
      apply (Sorted_StronglySorted String.le), sorted_Sorted.
    + by rewrite Hperm, sorted_Permutation.
  - intros f Hf. apply Hload. by rewrite <-(sorted_Permutation names).
Qed.

End LoaderFacts.

(** ** Documentation generation *)

Section DocsFacts.

Context (w : World).

(** An invalid descriptor and one whose module is not found are left out. *)
Lemma collect_invalid rule rest acc lg :
  BaseRuleConfig_validate rule = None →
  Docs.collect w (rule :: rest) acc lg
  = Docs.collect w rest acc (lg ++ [LogValidationError]).
Proof. intros Hv. simpl. by rewrite Hv. Qed.

Lemma collect_module_missing rule rest acc lg cfg :
  BaseRuleConfig_validate rule = Some cfg →
  resolve w None None cfg = ModuleMissing →
  Docs.collect w (rule :: rest) acc lg
  = Docs.collect w rest acc (lg ++ [LogModuleNotFound (module cfg)]).
Proof.
  intros Hv Hres. simpl. rewrite Hv.
  unfold resolve, load_rule_from_module in *.
  repeat (case_match; simplify_eq/=); done.
Qed.

(** A descriptor that resolves and explains itself adds one record. *)
Lemma collect_resolved rule rest acc lg cfg rule_func text :
  BaseRuleConfig_validate rule = Some cfg →
  resolve w None None cfg = Resolved rule_func →
  explain rule_func = Return text →
  Docs.collect w (rule :: rest) acc lg
  = Docs.collect w rest
      (acc ++ [{| Docs.doc_name := name cfg;
                  Docs.doc_desc := description cfg;
                  Docs.doc_explain := text;
                  Docs.doc_required := bool_decide (type cfg = TRequire) |}])
      (lg ++ [CallInstantiate (module cfg) (class_name cfg);
              CallExplain (name cfg)]).
Proof.
  intros Hv Hres Hex. simpl. rewrite Hv.
  unfold resolve, load_rule_from_module in *.
  repeat (case_match; simplify_eq/=). by rewrite <-app_assoc.
Qed.

(** A class that the module does not have stops the whole generation. *)
Lemma collect_class_missing rule rest acc lg cfg :
  BaseRuleConfig_validate rule = Some cfg →
  resolve w None None cfg = ClassMissing →
  Docs.collect w (rule :: rest) acc lg
  = (Raised (TypeError "'NoneType' object is not callable"), lg).
Proof.
  intros Hv Hres. simpl. rewrite Hv.
  unfold resolve, load_rule_from_module in *.
  repeat (case_match; simplify_eq/=); done.
Qed.

End DocsFacts.

(** ** The engine on the demo rule set *)

(** The scenario of spec 8: A ([require], passes), B (depends on A, [fail],
    one violation), C (depends on B, [skip]). *)
Example scenario_three_rules :
  let f := Demo.run [Demo.entry "A" "Pass" "require" [];
                     Demo.entry "B" "Violate" "fail" ["A"];
                     Demo.entry "C" "Pass" "skip" ["B"]] in
  result_of f = Return true
  ∧ rule_status (state_of f)
    = {[ KStr "A" := true; KStr "B" := false; KStr "C" := false ]}.
Proof. by vm_compute. Qed.

(** Two descriptors named A with a dependent between them and one after. *)
Example scenario_duplicate_names :
  let f := Demo.run [Demo.entry "A" "Pass" "fail" [];
                     Demo.entry "D" "Pass" "fail" ["A"];
                     Demo.entry "A" "Violate" "fail" [];
                     Demo.entry "E" "Pass" "fail" ["A"]] in
  result_of f = Return true
  ∧ rule_status (state_of f)
    = {[ KStr "A" := false; KStr "D" := true; KStr "E" := false ]}.
Proof. by vm_compute. Qed.

(** C3 (the code departs from it): the first evaluated rule raises. Under
    each of the three policies [execute_rules] itself raises
    [UnboundLocalError]: it neither returns [False] for [require] nor goes
    on to the next descriptor for [fail] and [skip]. *)
Theorem evaluation_error_in_first_rule_raises :
  execute_rules Demo.world "a.map" Demo.the_map
    {| rules := [Demo.entry "A" "Boom" "require" []] |}
  = Raised (UnboundLocalError "rule_time_elapsed")
  ∧ execute_rules Demo.world "a.map" Demo.the_map
      {| rules := [Demo.entry "A" "Boom" "fail" [];
                   Demo.entry "B" "Pass" "fail" []] |}
    = Raised (UnboundLocalError "rule_time_elapsed")
  ∧ execute_rules Demo.world "a.map" Demo.the_map
      {| rules := [Demo.entry "A" "Boom" "skip" [];
                   Demo.entry "B" "Pass" "fail" []] |}
    = Raised (UnboundLocalError "rule_time_elapsed")
  ∧ rule_status (state_of (Demo.run [Demo.entry "A" "Boom" "fail" [];
                                     Demo.entry "B" "Pass" "fail" []]))
    = {[ KStr "A" := false ]}.
Proof. by vm_compute. Qed.

(** C4 (the code departs from it): the module resolves and has no class of
    that name. [execute_rules] raises [TypeError]; nothing is reported as
    not found, no status is recorded for the rule and the descriptors after
    it are not processed. *)
Theorem missing_class_raises :
  let f := Demo.run [Demo.entry "A" "Pass" "fail" [];
                     Demo.entry "B" "Nope" "fail" [];
                     Demo.entry "C" "Pass" "fail" []] in
  execute_rules Demo.world "a.map" Demo.the_map
    {| rules := [Demo.entry "A" "Pass" "fail" [];
                 Demo.entry "B" "Nope" "fail" [];
                 Demo.entry "C" "Pass" "fail" []] |}
  = Raised (TypeError "'NoneType' object is not callable")
  ∧ rule_status (state_of f) = {[ KStr "A" := true ]}
  ∧ log (state_of f)
    = [CallInstantiate "checks" "Pass"; CallEvaluate "A"; LogPassed "A"].
Proof. by vm_compute. Qed.

(** C5 (the code departs from it): a raw mapping without [name] fails
    validation, and [execute_rules] raises [KeyError] in the handler: no
    outcome is recorded and the descriptors after it are not processed. *)
Theorem nameless_entry_raises :
  let f := Demo.run [Demo.nameless "Pass" "fail";
                     Demo.entry "B" "Pass" "fail" []] in
  BaseRuleConfig_validate (Demo.nameless "Pass" "fail") = None
  ∧ execute_rules Demo.world "a.map" Demo.the_map
      {| rules := [Demo.nameless "Pass" "fail";
                   Demo.entry "B" "Pass" "fail" []] |}
    = Raised (KeyError "name")
  ∧ rule_status (state_of f) = ∅
  ∧ log (state_of f) = [LogValidationError].
Proof. by vm_compute. Qed.

(** C9 (the code departs from it): documentation generation over a
    configuration with a class that the module does not have raises
    [TypeError] and returns no list. *)
Theorem generate_rules_file_missing_class_raises :
  (Docs.generate_rules_file Demo.world Demo.fs_unknown_class).1
  = Raised (TypeError "'NoneType' object is not callable").
Proof. by vm_compute. Qed.


(** ** The claims at the demo rule set *)

Lemma require_violation_aborts_witness :
  execute_rules Demo.world "a.map" Demo.the_map
    {| rules := [Demo.entry "A" "Pass" "fail" []]
                ++ Demo.entry "R" "Violate" "require" ["A"]
                   :: [Demo.entry "C" "Pass" "skip" []] |}
  = Return false.
Proof.
  edestruct (require_violation_aborts Demo.world "a.map" Demo.the_map
               [Demo.entry "A" "Pass" "fail" []]
               (Demo.entry "R" "Violate" "require" ["A"])
               [Demo.entry "C" "Pass" "skip" []])
    as (st' & _ & Hresult & _).
  - eapply processed_cons; [vm_compute; reflexivity|apply processed_nil].
  - vm_compute; reflexivity.
  - reflexivity.
  - vm_compute; reflexivity.
  - vm_compute; reflexivity.
  - reflexivity.
  - discriminate.
  - exact Hresult.
Defined.

Lemma unmet_dependency_blocks_witness :
  ∃ st',
    process_rule Demo.world "a.map" Demo.the_map initial_state
      (Demo.entry "C" "Pass" "skip" ["B"]) = Continue st'
    ∧ log st' = [LogSkipUnmetDependencies "C"].
Proof.
  edestruct (unmet_dependency_blocks Demo.world "a.map" Demo.the_map
               initial_state (Demo.entry "C" "Pass" "skip" ["B"]) [])
    as (st' & Hstep & _ & Hlog & _).
  - vm_compute; reflexivity.
  - simpl. left.
  - left. vm_compute; reflexivity.
  - exists st'. split; [exact Hstep|exact Hlog].
Defined.

Lemma fail_or_skip_violation_continues_witness :
  ∃ st',
    process_rule Demo.world "a.map" Demo.the_map initial_state
      (Demo.entry "B" "Violate" "skip" []) = Continue st'
    ∧ rule_status st' !! KStr "B" = Some false.
Proof.
  edestruct (fail_or_skip_violation_continues Demo.world "a.map" Demo.the_map
               initial_state (Demo.entry "B" "Violate" "skip" []) [])
    as (st' & Hstep & _ & Hstatus & _).
  - vm_compute; reflexivity.
  - right. reflexivity.
  - vm_compute; reflexivity.
  - vm_compute; reflexivity.
  - reflexivity.
  - discriminate.
  - exists st'. split; [exact Hstep|exact Hstatus].
Defined.


Lemma load_all_rules_concatenates_witness :
  Loader.load_all_rules Demo.fs "map_rules/" []
  = Return {| rules := concat (Demo.rules_of <$>
                                 ["a_base.yaml"; "b_extra.yaml"]) |}.
Proof.
  apply (load_all_rules_concatenates Demo.fs "map_rules/" [] Demo.rules_of
           ["b_extra.yaml"; "notes.txt"; "a_base.yaml"]).
  - reflexivity.
  - intros f Hf Hdecl.
    repeat (apply elem_of_cons in Hf as [->|Hf]); try by vm_compute.
    by apply elem_of_nil in Hf.
  - repeat constructor.
  - vm_compute. apply Permutation_swap.
Defined.


(** * Further properties of the engine *)

Section EngineInvariants.

Context (w : World) (raw_file : string) (map_data : twmap_Map).

#[local] Abbreviation process_rule := (process_rule w raw_file map_data).
#[local] Abbreviation run_rules := (run_rules w raw_file map_data).
#[local] Abbreviation processed := (processed w raw_file map_data).
#[local] Abbreviation execute_rules_run := (execute_rules_run w raw_file map_data).
#[local] Abbreviation execute_rules := (execute_rules w raw_file map_data).

(** Where a run that returns [False] stopped. *)
Lemma run_rules_returns_false st rules st' :
  run_rules st rules = ReturnFalse st' →
  ∃ pre rule post st1,
    rules = pre ++ rule :: post
    ∧ processed st pre st1
    ∧ process_rule st1 rule = ReturnFalse st'.
Proof.
  revert st. induction rules as [|rule rest IH]; intros st; simpl; [done|].
  destruct (process_rule st rule) as [st1|st1|] eqn:Hstep; try done.
  - intros (pre & r & post & st2 & -> & Hpre & Hr)%IH.
    exists (rule :: pre), r, post, st2. split_and!; try done.
    econstructor; eauto.
  - intros [= <-]. exists [], rule, rest, st. split_and!; try done. constructor.
Qed.

(** The iteration that returns [False]. *)
Lemma process_rule_false_cause st rule st' :
  process_rule st rule = ReturnFalse st' →
  ∃ cfg rule_func,
    BaseRuleConfig_validate rule = Some cfg
    ∧ type cfg = TRequire
    ∧ forallb (can_run_rule (rule_status st)) (depends_on cfg) = true
    ∧ resolve w (Some raw_file) (Some map_data) cfg = Resolved rule_func
    ∧ evaluate rule_func ≠ EvalReturn [].
Proof.
  unfold Engine.process_rule, resolve, load_rule_from_module, evaluate_rule,
    format_rule_time_elapsed.
  destruct (BaseRuleConfig_validate rule) as [cfg|]; [|by repeat case_match].
  intros Hs. exists cfg.
  repeat (case_match; simplify_eq/=);
    (eexists; split_and!;
     first [done | by apply negb_false_iff
           | by intros Heq; rewrite Heq in *; simplify_eq/=]).
Qed.

(** X1: [execute_rules] returns [False] only at a descriptor that
    validated with policy [require], passed its gate, resolved, and whose
    evaluation did not return an empty list of violations. *)
Theorem overall_failure_only_from_require config :
  execute_rules config = Return false →
  ∃ pre rule post st cfg rule_func,
    rules config = pre ++ rule :: post
    ∧ processed initial_state pre st
    ∧ BaseRuleConfig_validate rule = Some cfg
    ∧ type cfg = TRequire
    ∧ forallb (can_run_rule (rule_status st)) (depends_on cfg) = true
    ∧ resolve w (Some raw_file) (Some map_data) cfg = Resolved rule_func
    ∧ evaluate rule_func ≠ EvalReturn [].
Proof.
  unfold Engine.execute_rules, Engine.execute_rules_run.
  destruct (run_rules initial_state (rules config)) as [|st'|] eqn:Hrun;
    try done.
  intros _.
  apply run_rules_returns_false in Hrun
    as (pre & rule & post & st & Hsplit & Hpre & Hstep).
  apply process_rule_false_cause in Hstep
    as (cfg & rule_func & ? & ? & ? & ? & ?).
  exists pre, rule, post, st, cfg, rule_func. by split_and!.
Qed.

(** The entries of the table after some descriptors were processed. *)
Lemma processed_entries st rules st' k :
  processed st rules st' →
  is_Some (rule_status st' !! k) ↔
  is_Some (rule_status st !! k) ∨ ∃ rule, rule ∈ rules ∧ rule_key rule = Some k.
Proof.
  induction 1 as [st|st rule st1 rest st2 Hstep _ IH].
  { split; [by left|]. intros [?|(? & []%elem_of_nil & _)]. done. }
  rewrite IH.
  apply process_rule_records in Hstep as (k' & b & Hk' & ->).
  rewrite lookup_insert. split.
  - intros [Hk|(r & Hr & Hkr)].
    + case_decide as Hd; [subst; right; exists rule|left; done].
      split; [by left|done].
    + right. exists r. split; [by right|done].
  - intros [Hk|(r & [->|Hr]%elem_of_cons & Hkr)].
    + left. case_decide; eauto.
    + left. rewrite decide_True by congruence. eauto.
    + right. eauto.
Qed.

(** X2: after every descriptor of a list was processed, the status table
    has an entry for exactly the keys of those descriptors. *)
Theorem status_table_keys rules st k :
  processed initial_state rules st →
  is_Some (rule_status st !! k) ↔ ∃ rule, rule ∈ rules ∧ rule_key rule = Some k.
Proof.
  intros Hrun. rewrite (processed_entries _ _ _ k Hrun). simpl.
  rewrite lookup_empty. split; [|by right].
  by intros [[? [=]]|?].
Qed.

Lemma nonpositive_length {A} (l : list A) :
  negb (0 <? length l)%nat = true → l = [].
Proof. by destruct l. Qed.

(** An iteration writes [True] only after an evaluation without violations. *)
Lemma process_rule_true st rule st' k :
  process_rule st rule = Continue st' →
  rule_status st' !! k = Some true →
  rule_status st !! k = Some true
  ∨ ∃ cfg rule_func,
      BaseRuleConfig_validate rule = Some cfg
      ∧ k = KStr (name cfg)
      ∧ forallb (can_run_rule (rule_status st)) (depends_on cfg) = true
      ∧ resolve w (Some raw_file) (Some map_data) cfg = Resolved rule_func
      ∧ evaluate rule_func = EvalReturn [].
Proof.
  unfold Engine.process_rule, resolve, load_rule_from_module, evaluate_rule,
    format_rule_time_elapsed.
  intros Hstep Hk.
  repeat (case_match; simplify_eq/=);
    rewrite lookup_insert in Hk; case_decide; simplify_eq/=;
    first [by left | right].
  match goal with
  | Hlen : negb (_ <? _)%nat = true |- _ => apply nonpositive_length in Hlen as ->
  end.
  repeat match goal with
         | H : negb _ = false |- _ => apply negb_false_iff in H
         end.
  eexists _, _. split_and!; try done.
  repeat match goal with
         | H : ?x = _ |- context [?x] => rewrite H
         end. done.
Qed.

(** X3: an entry [True] in the table stands for a descriptor of that name
    that validated, passed its gate, resolved, and whose evaluation returned
    no violation. *)
Theorem true_status_means_passed rules st k :
  processed initial_state rules st →
  rule_status st !! k = Some true →
  ∃ rule cfg rule_func,
    rule ∈ rules
    ∧ BaseRuleConfig_validate rule = Some cfg
    ∧ k = KStr (name cfg)
    ∧ resolve w (Some raw_file) (Some map_data) cfg = Resolved rule_func
    ∧ evaluate rule_func = EvalReturn [].
Proof.
  intros Hrun.
  assert (∀ st0, processed st0 rules st →
            rule_status st !! k = Some true →
            rule_status st0 !! k = Some true
            ∨ ∃ rule cfg rule_func,
                rule ∈ rules
                ∧ BaseRuleConfig_validate rule = Some cfg
                ∧ k = KStr (name cfg)
                ∧ resolve w (Some raw_file) (Some map_data) cfg
                  = Resolved rule_func
                ∧ evaluate rule_func = EvalReturn []) as Hgen.
  { clear Hrun. intros st0.
    induction 1 as [st|st0 rule st1 rest st2 Hstep _ IH]; [by left|].
    intros [Hk|(r & cfg & rf & Hr & ?)]%IH.
    - destruct (process_rule_true _ _ _ _ Hstep Hk)
        as [?|(cfg & rf & ? & ? & _ & ? & ?)]; [by left|].
      right. exists rule, cfg, rf. split_and!; try done. by left.
    - right. exists r, cfg, rf. split; [by right|done]. }
  intros Hk. destruct (Hgen _ Hrun Hk) as [Hinit|?]; [|done].
  simpl in Hinit. by rewrite lookup_empty in Hinit.
Qed.

(** X4: a dependency on a name under which no earlier descriptor is recorded
    (a rule that comes later, the rule itself, or no rule at all) blocks the
    descriptor: it is not evaluated and its status is false. *)
Theorem dependency_not_yet_recorded_blocks pre st rule cfg dep :
  processed initial_state pre st →
  Forall (λ r, rule_key r ≠ Some (KStr dep)) pre →
  BaseRuleConfig_validate rule = Some cfg →
  dep ∈ depends_on cfg →
  process_rule st rule
  = Continue (set_status (KStr (name cfg)) false
                (emit [LogSkipUnmetDependencies (name cfg)] st)).
Proof.
  intros Hpre Hnone Hv Hdep.
  assert (rule_status st !! KStr dep = None) as Habsent.
  { rewrite (processed_other_keys _ _ _ _ _ _ _ Hpre Hnone). simpl.
    apply lookup_empty. }
  unfold Engine.process_rule. rewrite Hv.
  by rewrite (gate_closed _ _ _ Hdep (or_introl Habsent)).
Qed.

Lemma evaluate_calls_app a b :
  evaluate_calls (a ++ b) = (evaluate_calls a + evaluate_calls b)%nat.
Proof. unfold evaluate_calls. by rewrite filter_app, length_app. Qed.

Lemma evaluate_calls_violations violations :
  evaluate_calls (LogViolation <$> violations) = 0%nat.
Proof. by induction violations. Qed.

(** What one iteration adds to the report. *)
Lemma process_rule_log st rule :
  ∃ added,
    log (state_of (process_rule st rule)) = log st ++ added
    ∧ (evaluate_calls added ≤ 1)%nat
    ∧ ∀ n, CallEvaluate n ∈ added →
        ∃ cfg, BaseRuleConfig_validate rule = Some cfg
          ∧ n = name cfg
          ∧ forallb (can_run_rule (rule_status st)) (depends_on cfg) = true.
Proof.
  unfold Engine.process_rule, load_rule_from_module, evaluate_rule,
    format_rule_time_elapsed.
  repeat (case_match; simplify_eq/=);
    repeat match goal with
           | H : negb _ = false |- _ => apply negb_false_iff in H
           end;
    (eexists; split;
     [rewrite <-?app_assoc; first [reflexivity|symmetry; apply app_nil_r]|]);
    (split;
     [rewrite ?evaluate_calls_app, ?evaluate_calls_violations; simpl;
      unfold evaluate_calls; simpl; lia
     |intros n Hin;
      repeat first
        [ apply elem_of_app in Hin as [Hin|Hin]
        | apply elem_of_cons in Hin as [Hin|Hin]
        | apply list_elem_of_fmap in Hin as (? & Hin & _)
        | apply elem_of_nil in Hin as [] ];
      try discriminate; injection Hin as ->; eexists; by split_and!]).
Qed.

(** X5: a rule is evaluated only when every name in its [depends_on] has
    status true at that moment. *)
Theorem evaluated_only_with_met_dependencies st rule added n :
  log (state_of (process_rule st rule)) = log st ++ added →
  CallEvaluate n ∈ added →
  ∃ cfg,
    BaseRuleConfig_validate rule = Some cfg
    ∧ n = name cfg
    ∧ ∀ dep, dep ∈ depends_on cfg → rule_status st !! KStr dep = Some true.
Proof.
  intros Hlog Hin.
  destruct (process_rule_log st rule) as (added' & Hlog' & _ & Hcalls).
  rewrite Hlog in Hlog'. apply app_inv_head in Hlog' as ->.
  destruct (Hcalls _ Hin) as (cfg & Hv & -> & Hgate).
  exists cfg. split_and!; try done.
  intros dep Hdep%list_elem_of_In.
  rewrite forallb_forall in Hgate. specialize (Hgate _ Hdep).
  unfold can_run_rule in Hgate.
  by destruct (rule_status st !! KStr dep) as [[]|].
Qed.

Lemma run_rules_evaluate_calls st rules :
  (evaluate_calls (log (state_of (run_rules st rules)))
   ≤ evaluate_calls (log st) + length rules)%nat.
Proof.
  revert st. induction rules as [|rule rest IH]; intros st; simpl; [lia|].
  destruct (process_rule_log st rule) as (added & Hlog & Hle & _).
  destruct (process_rule st rule) as [st1|st1|e st1] eqn:Hstep; simpl in *.
  - specialize (IH st1). rewrite Hlog, evaluate_calls_app in IH. lia.
  - rewrite Hlog, evaluate_calls_app. lia.
  - rewrite Hlog, evaluate_calls_app. lia.
Qed.

(** The report of the loop, iteration by iteration: one segment for each
    descriptor that was reached, each what [process_rule] added for that
    descriptor at the state the loop was in. *)
Lemma run_rules_segments st rules :
  ∃ segments,
    log (state_of (run_rules st rules)) = log st ++ concat segments
    ∧ (length segments ≤ length rules)%nat
    ∧ ∀ i rule segment,
        rules !! i = Some rule →
        segments !! i = Some segment →
        ∃ st_i,
          log st_i = log st ++ concat (take i segments)
          ∧ log (state_of (process_rule st_i rule)) = log st_i ++ segment
          ∧ (evaluate_calls segment ≤ 1)%nat
          ∧ ∀ n, CallEvaluate n ∈ segment →
              ∃ cfg, BaseRuleConfig_validate rule = Some cfg ∧ n = name cfg.
Proof.
  revert st. induction rules as [|rule rest IH]; intros st.
  { exists []. simpl. rewrite app_nil_r. split_and!; [done..|].
    intros i rule segment Hr. by rewrite lookup_nil in Hr. }
  destruct (process_rule_log st rule) as (added & Hlog & Hle & Hcalls).
  assert (∃ st_0,
            log st_0 = log st ++ concat (take 0 (added :: []))
            ∧ log (state_of (process_rule st_0 rule)) = log st_0 ++ added
            ∧ (evaluate_calls added ≤ 1)%nat
            ∧ ∀ n, CallEvaluate n ∈ added →
                ∃ cfg, BaseRuleConfig_validate rule = Some cfg ∧ n = name cfg)
    as Hfirst.
  { exists st. simpl. rewrite app_nil_r. split_and!; try done.
    intros n Hn. destruct (Hcalls n Hn) as (cfg & ? & ? & _). by exists cfg. }
  simpl. destruct (process_rule st rule) as [st1|st1|e st1] eqn:Hstep.
  - destruct (IH st1) as (segments & Hrun & Hlen & Hsegments).
    exists (added :: segments). simpl in Hlog.
    split_and!.
    + rewrite Hrun, Hlog. simpl. by rewrite <-app_assoc.
    + simpl. lia.
    + intros [|i] r segment Hr Hs; simplify_eq/=; [done|].
      destruct (Hsegments i r segment Hr Hs) as (st_i & Hst_i & Hrest).
      exists st_i. split; [|done].
      rewrite Hst_i, Hlog. by rewrite <-app_assoc.
  - exists [added]. simpl in *. rewrite app_nil_r.
    split_and!; [done|lia|].
    intros [|i] r segment Hr Hs; simplify_eq/=. done.
  - exists [added]. simpl in *. rewrite app_nil_r.
    split_and!; [done|lia|].
    intros [|i] r segment Hr Hs; simplify_eq/=. done.
Qed.

(** X6: however the run ends, [evaluate] is called at most once per
    descriptor. The report is the concatenation, in the order of the
    configuration, of one segment per descriptor that was reached, then a
    closing part without any call; the segment of a descriptor is what its
    iteration added at the state the loop was in, it holds at most one call
    of [evaluate], and that call is for the name of this descriptor. So the
    calls are also no more than the descriptors. *)
Theorem evaluate_called_at_most_once_per_descriptor config :
  ∃ segments closing,
    log (state_of (execute_rules_run config)) = concat segments ++ closing
    ∧ evaluate_calls closing = 0%nat
    ∧ (length segments ≤ length (rules config))%nat
    ∧ (∀ i rule segment,
         rules config !! i = Some rule →
         segments !! i = Some segment →
         ∃ st_i,
           log st_i = concat (take i segments)
           ∧ log (state_of (process_rule st_i rule)) = log st_i ++ segment
           ∧ (evaluate_calls segment ≤ 1)%nat
           ∧ ∀ n, CallEvaluate n ∈ segment →
               ∃ cfg, BaseRuleConfig_validate rule = Some cfg
                 ∧ n = name cfg)
    ∧ (evaluate_calls (log (state_of (execute_rules_run config)))
       ≤ length (rules config))%nat.
Proof.
  destruct (run_rules_segments initial_state (rules config))
    as (segments & Hlog & Hlen & Hsegments).
  pose proof (run_rules_evaluate_calls initial_state (rules config)) as Hle.
  simpl in Hlog, Hle. unfold Engine.execute_rules_run.
  exists segments.
  destruct (run_rules initial_state (rules config)) as [st|st|e st];
    simpl in *.
  - exists [LogAllProcessed].
    split_and!; [by rewrite Hlog|done|done|exact Hsegments|].
    rewrite evaluate_calls_app.
    change (evaluate_calls [LogAllProcessed]) with 0%nat. lia.
  - exists []. rewrite app_nil_r.
    split_and!; [done|done|done|exact Hsegments|lia].
  - exists []. rewrite app_nil_r.
    split_and!; [done|done|done|exact Hsegments|lia].
Qed.

(** X7: an import that fails otherwise than by [ModuleNotFoundError], or a
    constructor that raises, is outside every [try]: under each policy the
    run ends with that exception and no status is recorded for the rule. *)
Theorem resolution_error_propagates st rule rest cfg e :
  BaseRuleConfig_validate rule = Some cfg →
  forallb (can_run_rule (rule_status st)) (depends_on cfg) = true →
  resolve w (Some raw_file) (Some map_data) cfg = ImportFailed e
  ∨ resolve w (Some raw_file) (Some map_data) cfg = ConstructFailed e →
  ∃ st',
    process_rule st rule = Raise e st'
    ∧ rule_status st' = rule_status st
    ∧ run_rules st (rule :: rest) = Raise e st'.
Proof.
  intros Hv Hgate Hres. simpl.
  unfold Engine.process_rule, resolve, load_rule_from_module in *.
  rewrite Hv, Hgate. simpl.
  destruct Hres as [Hres|Hres];
    repeat (case_match; simplify_eq/=); by eexists.
Qed.

(** X8: an evaluation that leaves by an exception outside [Exception]
    ([SystemExit], [KeyboardInterrupt]) is not caught: the run ends with it
    and the status of the rule is not recorded. *)
Theorem non_exception_from_evaluate_propagates st rule rest cfg rule_func e :
  BaseRuleConfig_validate rule = Some cfg →
  forallb (can_run_rule (rule_status st)) (depends_on cfg) = true →
  resolve w (Some raw_file) (Some map_data) cfg = Resolved rule_func →
  evaluate rule_func = EvalRaise e →
  is_Exception e = false →
  ∃ st',
    process_rule st rule = Raise e st'
    ∧ rule_status st' = rule_status st
    ∧ run_rules st (rule :: rest) = Raise e st'.
Proof.
  intros Hv Hgate Hres Hev Hexn. simpl.
  rewrite (process_rule_resolved _ _ _ _ _ _ _ Hv Hgate Hres).
  unfold evaluate_rule. rewrite Hev, Hexn. by eexists.
Qed.

(** X9: an instance that is not truthy is what the engine reports as "rule
    function not found": it is not evaluated, its status is false and the
    loop goes on. *)
Theorem falsy_instance_reported_not_found st rule rest cfg rule_func :
  BaseRuleConfig_validate rule = Some cfg →
  forallb (can_run_rule (rule_status st)) (depends_on cfg) = true →
  resolve w (Some raw_file) (Some map_data) cfg = NotTruthy rule_func →
  ∃ st',
    process_rule st rule = Continue st'
    ∧ rule_status st' = <[KStr (name cfg) := false]> (rule_status st)
    ∧ log st' = log st ++ [CallInstantiate (module cfg) (class_name cfg);
                           LogRuleFunctionNotFound (name cfg) (module cfg)]
    ∧ run_rules st (rule :: rest) = run_rules st' rest.
Proof.
  intros Hv Hgate Hres. simpl.
  unfold Engine.process_rule, resolve, load_rule_from_module in *.
  rewrite Hv, Hgate. simpl.
  repeat (case_match; simplify_eq/=).
  eexists. split_and!; try done. simpl. by rewrite <-app_assoc.
Qed.

(** X10: a module that is not found makes the rule a failed one: a warning,
    status false, no class lookup and no instance, and the loop goes on. *)
Theorem missing_module_is_skipped st rule rest cfg :
  BaseRuleConfig_validate rule = Some cfg →
  forallb (can_run_rule (rule_status st)) (depends_on cfg) = true →
  resolve w (Some raw_file) (Some map_data) cfg = ModuleMissing →
  ∃ st',
    process_rule st rule = Continue st'
    ∧ rule_status st' = <[KStr (name cfg) := false]> (rule_status st)
    ∧ log st' = log st ++ [LogModuleNotFound (module cfg)]
    ∧ run_rules st (rule :: rest) = run_rules st' rest.
Proof.
  intros Hv Hgate Hres. simpl.
  rewrite (module_missing_recorded _ _ _ _ _ _ Hv Hgate Hres).
  by eexists.
Qed.

(** X11: a mapping that fails validation and has a string [name] is
    recorded as failed under that name, whatever the table held for it, so
    a descriptor that depends on the name and comes next is blocked. *)
Theorem invalid_entry_blocks_dependents st rule n dependent cfg :
  BaseRuleConfig_validate rule = None →
  rule !! "name" = Some (YStr n) →
  BaseRuleConfig_validate dependent = Some cfg →
  n ∈ depends_on cfg →
  ∃ st1 st2,
    process_rule st rule = Continue st1
    ∧ rule_status st1 !! KStr n = Some false
    ∧ process_rule st1 dependent = Continue st2
    ∧ rule_status st2 !! KStr (name cfg) = Some false
    ∧ log st2 = log st ++ [LogValidationError;
                           LogSkipUnmetDependencies (name cfg)].
Proof.
  intros Hinv Hname Hv Hdep.
  pose proof (invalid_named_recorded w raw_file map_data st rule _ _
                Hinv Hname eq_refl) as Hstep.
  eexists _, _. split; [exact Hstep|].
  split; [apply lookup_insert_eq|].
  unfold Engine.process_rule at 1. rewrite Hv.
  rewrite (gate_closed _ _ n Hdep); [|right; apply lookup_insert_eq].
  simpl. split_and!; [done|apply lookup_insert_eq|].
  unfold emit, set_log. simpl. by rewrite <-?app_assoc.
Qed.

(** Once some evaluation was called in a run that went on, the local
    [rule_time_elapsed] is bound. *)
Lemma processed_elapsed_bound st rules st' :
  processed st rules st' →
  ((∃ n, CallEvaluate n ∈ log st) → rule_time_elapsed_bound st = true) →
  (∃ n, CallEvaluate n ∈ log st') → rule_time_elapsed_bound st' = true.
Proof.
  induction 1 as [st|st rule st1 rest st2 Hstep _ IH]; [done|].
  intros Hinv. apply IH. clear IH. intros [n Hin].
  revert Hstep Hin.
  unfold Engine.process_rule, load_rule_from_module, evaluate_rule,
    format_rule_time_elapsed.
  repeat (case_match; simplify_eq/=); intros; simplify_eq/=; try done;
    apply Hinv; exists n;
    repeat first
      [ apply elem_of_app in Hin as [Hin|Hin]
      | apply elem_of_cons in Hin as [Hin|Hin]
      | apply elem_of_nil in Hin as [] ];
    done.
Qed.

(** X12: in a run that has called some evaluation before and went on, an
    evaluation that raises an [Exception] is handled by the policy: status
    false, then [False] for [require] and the next descriptor for [fail]
    and [skip]. *)
Theorem evaluation_error_after_an_evaluation pre st rule cfg rule_func e n :
  processed initial_state pre st →
  CallEvaluate n ∈ log st →
  BaseRuleConfig_validate rule = Some cfg →
  forallb (can_run_rule (rule_status st)) (depends_on cfg) = true →
  resolve w (Some raw_file) (Some map_data) cfg = Resolved rule_func →
  evaluate rule_func = EvalRaise e →
  is_Exception e = true →
  ∃ st',
    rule_status st' = <[KStr (name cfg) := false]> (rule_status st)
    ∧ process_rule st rule
      = match type cfg with
        | TRequire => ReturnFalse st'
        | TFail | TSkip => Continue st'
        end.
Proof.
  intros Hpre Hin Hv Hgate Hres Hev Hexn.
  assert (rule_time_elapsed_bound st = true) as Hbound.
  { apply (processed_elapsed_bound _ _ _ Hpre); [|by exists n].
    by intros [? []%elem_of_nil]. }
  rewrite (evaluation_error_bound _ _ _ _ _ _ _ _ Hv Hgate Hres Hev Hexn
             Hbound).
  destruct (type cfg); (eexists; split; [|reflexivity]); done.
Qed.

(** A sequence that passes, run from a table whose entries are all true
    and hold the names seen so far. *)
Lemma all_pass_processed seen rules st :
  all_pass w raw_file map_data seen rules = true →
  (∀ n, n ∈ seen → rule_status st !! KStr n = Some true) →
  (∀ k b, rule_status st !! k = Some b → b = true) →
  ∃ st', processed st rules st'
    ∧ ∀ k b, rule_status st' !! k = Some b → b = true.
Proof.
  revert seen st. induction rules as [|rule rest IH]; intros seen st; simpl.
  { intros _ _ Htrue. exists st. split; [constructor|done]. }
  unfold passes.
  destruct (BaseRuleConfig_validate rule) as [cfg|] eqn:Hv; [|done]. simpl.
  destruct (resolve w _ _ cfg) as [| | | | |rule_func] eqn:Hres; try done.
  destruct (evaluate rule_func) as [[|]|] eqn:Hev; try done.
  intros [Hdeps Hrest]%andb_true_iff Hseen Htrue.
  assert (forallb (can_run_rule (rule_status st)) (depends_on cfg) = true)
    as Hgate.
  { apply forallb_forall. intros dep Hdep.
    rewrite forallb_forall in Hdeps. apply Hdeps in Hdep.
    apply bool_decide_eq_true in Hdep. unfold can_run_rule.
    by rewrite (Hseen _ Hdep). }
  pose proof (process_rule_resolved w raw_file map_data st _ _ _ Hv Hgate Hres)
    as Hstep.
  unfold evaluate_rule in Hstep. rewrite Hev in Hstep. simpl in Hstep.
  destruct (IH (name cfg :: seen) (state_of (process_rule st rule)) Hrest)
    as (st' & Hrun & Htrue').
  - rewrite Hstep. simpl. intros n [->|Hn]%elem_of_cons.
    + apply lookup_insert_eq.
    + rewrite lookup_insert. case_decide; [done|by apply Hseen].
  - rewrite Hstep. simpl. intros k b. rewrite lookup_insert.
    case_decide; [by intros [= <-]|apply Htrue].
  - exists st'. split; [|done]. econstructor; [exact Hstep|].
    by rewrite Hstep in Hrun.
Qed.

(** X13: a configuration in which every mapping validates, resolves, has no
    violation, and depends only on names of mappings before it runs to the
    end: [execute_rules] returns [True] and every entry of the status table
    is true. *)
Theorem clean_configuration_succeeds config :
  all_pass w raw_file map_data [] (rules config) = true →
  execute_rules config = Return true
  ∧ ∀ k b,
      rule_status (state_of (execute_rules_run config)) !! k = Some b →
      b = true.
Proof.
  intros Hall.
  destruct (all_pass_processed [] (rules config) initial_state Hall)
    as (st & Hrun%processed_run_rules & Htrue).
  - by intros n ?%elem_of_nil.
  - intros k b. simpl. by rewrite lookup_empty.
  - unfold Engine.execute_rules, Engine.execute_rules_run.
    by rewrite Hrun.
Qed.

End EngineInvariants.

(** * Further properties of the loader *)

Section LoaderMore.

Import Loader.

Context (directory : string) (exclude : list string).

(** The loop reads the file system only at the declaration files. *)
Lemma load_files_ext fs fs' filenames all_rules :
  (∀ f, f ∈ filenames → declaration_file exclude f = true →
        yaml_load fs (os_path_join directory f)
        = yaml_load fs' (os_path_join directory f)) →
  load_files fs directory exclude filenames all_rules
  = load_files fs' directory exclude filenames all_rules.
Proof.
  revert all_rules.
  induction filenames as [|f rest IH]; intros all_rules Hsame; [done|].
  assert (∀ acc, load_files fs directory exclude rest acc
                 = load_files fs' directory exclude rest acc) as IH'.
  { intros acc. apply IH. intros f' Hf'. apply Hsame. by right. }
  simpl. destruct (existsb _ exclude) eqn:Hex; [apply IH'|].
  destruct (endswith f ".yaml") eqn:Hext; [|apply IH'].
  unfold load_rules_from_file. rewrite Hsame; [|by left|].
  - destruct (yaml_load fs' _) as [doc|]; [|done].
    destruct (getitem_rules doc); [apply IH'|done].
  - unfold declaration_file. by rewrite Hext, Hex.
Qed.

(** X14: the result of the loader, a configuration or an exception, depends
    only on which names the directory lists and on what the declaration
    files among them hold: not on the order of the listing, and not on any
    file that is excluded or has another extension, which is never read. *)
Theorem load_all_rules_depends_only_on_declaration_files fs fs' names names' :
  listdir fs directory = Return names →
  listdir fs' directory = Return names' →
  names ≡ₚ names' →
  (∀ f, f ∈ names → declaration_file exclude f = true →
        yaml_load fs (os_path_join directory f)
        = yaml_load fs' (os_path_join directory f)) →
  load_all_rules fs directory exclude = load_all_rules fs' directory exclude.
Proof.
  intros Hls Hls' Hperm Hsame. unfold load_all_rules. rewrite Hls, Hls'.
  assert (sorted names' = sorted names) as ->.
  { apply sorted_unique; [apply sorted_Sorted|].
    by rewrite sorted_Permutation. }
  rewrite (load_files_ext fs fs'); [done|].
  intros f Hf. apply Hsame. by rewrite <-(sorted_Permutation names).
Qed.

Lemma load_files_returns fs filenames all_rules result :
  load_files fs directory exclude filenames all_rules = Return result →
  ∀ f, f ∈ filenames → declaration_file exclude f = true →
    ∃ rs, yaml_load fs (os_path_join directory f)
          = Return (DocMapping (Some rs)).
Proof.
  revert all_rules.
  induction filenames as [|f rest IH]; intros all_rules Hret f' Hf' Hdecl.
  { by apply elem_of_nil in Hf'. }
  simpl in Hret. unfold declaration_file in Hdecl.
  apply elem_of_cons in Hf' as [->|Hf'].
  - apply andb_true_iff in Hdecl as [Hext Hex%negb_true_iff].
    rewrite Hex, Hext in Hret. unfold load_rules_from_file in Hret.
    destruct (yaml_load fs _) as [[[rs|]|]|]; try done. by exists rs.
  - destruct (existsb _ exclude); [by eapply IH|].
    destruct (endswith f ".yaml"); [|by eapply IH].
    destruct (load_rules_from_file fs _) as [doc|]; [|done].
    destruct (getitem_rules doc); [by eapply IH|done].
Qed.

(** X15: a declaration file that does not load is fatal, never dropped: if
    some listed file with the extension and no excluded prefix raises when
    it is loaded, or loads as something that is not a mapping, or as a
    mapping without [rules], then the loader raises. *)
Theorem unloadable_declaration_file_is_fatal fs names f :
  listdir fs directory = Return names →
  f ∈ names →
  declaration_file exclude f = true →
  (∃ e, yaml_load fs (os_path_join directory f) = Raised e)
  ∨ yaml_load fs (os_path_join directory f) = Return DocOther
  ∨ yaml_load fs (os_path_join directory f) = Return (DocMapping None) →
  ∃ e, load_all_rules fs directory exclude = Raised e.
Proof.
  intros Hls Hf Hdecl Hbad. unfold load_all_rules. rewrite Hls.
  destruct (load_files fs directory exclude (sorted names) [])
    as [result|e] eqn:Hfiles; [|by exists e].
  destruct (load_files_returns fs (sorted names) [] result Hfiles f)
    as (rs & Hrs); [by rewrite sorted_Permutation|done|].
  rewrite Hrs in Hbad. by destruct Hbad as [[e [=]]|[[=]|[=]]].
Qed.

Lemma load_files_all_excluded fs filenames all_rules :
  "" ∈ exclude →
  load_files fs directory exclude filenames all_rules = Return all_rules.
Proof.
  intros Hempty. induction filenames as [|f rest IH]; [done|]. simpl.
  assert (existsb (λ skip, startswith f skip) exclude = true) as ->; [|done].
  apply existsb_exists. exists "". split; [by apply list_elem_of_In|].
  by destruct f.
Qed.

(** X16: an empty string among the excluded prefixes excludes every file:
    the loader reads none and returns a configuration without rules. *)
Theorem empty_prefix_excludes_every_file fs names :
  "" ∈ exclude →
  listdir fs directory = Return names →
  load_all_rules fs directory exclude = Return {| rules := [] |}.
Proof.
  intros Hempty Hls. unfold load_all_rules.
  by rewrite Hls, load_files_all_excluded.
Qed.

End LoaderMore.

Section LoaderExclusion.

Import Loader.

Context (fs : FileSystem) (directory : string).

Lemma existsb_startswith_mono exclude exclude' f :
  exclude ⊆ exclude' →
  existsb (λ skip, startswith f skip) exclude = true →
  existsb (λ skip, startswith f skip) exclude' = true.
Proof.
  intros Hsub (p & Hp & Hstart)%existsb_exists. apply existsb_exists.
  exists p. split; [|done]. apply list_elem_of_In, Hsub. by apply list_elem_of_In.
Qed.

Lemma load_files_more_excluded exclude exclude' filenames acc acc' result :
  exclude ⊆ exclude' →
  acc' `sublist_of` acc →
  load_files fs directory exclude filenames acc = Return result →
  ∃ result',
    load_files fs directory exclude' filenames acc' = Return result'
    ∧ result' `sublist_of` result.
Proof.
  intros Hsub. revert acc acc'.
  induction filenames as [|f rest IH]; intros acc acc' Hacc; simpl.
  { intros [= <-]. by exists acc'. }
  destruct (existsb _ exclude) eqn:Hex.
  { rewrite (existsb_startswith_mono _ _ _ Hsub Hex). by apply IH. }
  destruct (endswith f ".yaml") eqn:Hext.
  - unfold load_rules_from_file.
    destruct (yaml_load fs _) as [doc|]; [|done].
    destruct (getitem_rules doc) as [rs|]; [|done].
    destruct (existsb _ exclude').
    + apply IH. by apply sublist_inserts_r.
    + apply IH. by apply sublist_app.
  - destruct (existsb _ exclude'); by apply IH.
Qed.

(** X17: excluding more prefixes can only remove rules: if the loader
    returns a configuration for one exclusion list, it returns one for every
    larger list, and its rules are a sublist, in the same order, of the
    former's. *)
Theorem more_exclusions_give_a_sublist exclude exclude' config :
  exclude ⊆ exclude' →
  load_all_rules fs directory exclude = Return config →
  ∃ config',
    load_all_rules fs directory exclude' = Return config'
    ∧ rules config' `sublist_of` rules config.
Proof.
  intros Hsub. unfold load_all_rules.
  destruct (listdir fs directory) as [names|]; [|done].
  destruct (load_files fs directory exclude (sorted names) [])
    as [result|] eqn:Hfiles; [|done].
  intros [= <-].
  destruct (load_files_more_excluded _ _ _ _ [] _ Hsub (reflexivity _) Hfiles)
    as (result' & -> & Hres).
  by eexists.
Qed.

End LoaderExclusion.

(** * The command line *)

Section MainFacts.

Import Main.

Lemma split_nonempty sep s : split sep s ≠ [].
Proof.
  destruct s as [|a s]; simpl; [done|].
  case_decide; [done|]. by destruct (split sep s).
Qed.

Lemma join_cons sep field fields :
  fields ≠ [] →
  join sep (field :: fields) = field +:+ String sep (join sep fields).
Proof. by destruct fields. Qed.

Lemma join_split sep s : join sep (split sep s) = s.
Proof.
  induction s as [|a s IH]; simpl; [done|].
  pose proof (split_nonempty sep s) as Hne.
  case_decide as Ha.
  - rewrite join_cons by done. rewrite IH. by subst.
  - destruct (split sep s) as [|field [|field' fields]]; simpl in *;
      [done|by rewrite IH|].
    rewrite String_app_cons. by rewrite IH.
Qed.

Lemma split_fields sep s : Forall (λ field, contains sep field = false) (split sep s).
Proof.
  induction s as [|a s IH]; simpl; [by repeat constructor|].
  case_decide as Ha; [by constructor|].
  destruct (split sep s) as [|field fields]; simpl.
  - repeat constructor. simpl. by rewrite decide_False.
  - apply Forall_cons in IH as [Hfield Hrest].
    constructor; [|done]. simpl. by rewrite decide_False.
Qed.

Lemma split_without_separator sep s : contains sep s = false → split sep s = [s].
Proof.
  induction s as [|a s IH]; simpl; [done|].
  case_decide; [done|]. intros Hs. by rewrite (IH Hs).
Qed.

Lemma split_trailing_separator sep s :
  ∃ field fields, split sep (s +:+ String sep "") = field :: fields ++ [""].
Proof.
  induction s as [|a s (field & fields & IH)].
  - rewrite String_app_nil. simpl. rewrite decide_True by done.
    by exists "", [].
  - rewrite String_app_cons. simpl. rewrite IH. case_decide.
    + by exists "", (field :: fields).
    + by exists (String a field), fields.
Qed.

Lemma excluded_of_split skip :
  skip ≠ "" → excluded_of (Some skip) = split comma skip.
Proof.
  intros Hne. unfold excluded_of. rewrite decide_False by done.
  destruct (contains comma skip) eqn:Hc; [done|].
  by rewrite split_without_separator.
Qed.

(** X18: for a non-empty [--skip] value the two branches of the script
    agree: the excluded prefixes are the comma-separated fields of the
    value, none of them contains a comma, and joining them with commas
    gives the value back. *)
Theorem excluded_of_fields skip :
  skip ≠ "" →
  excluded_of (Some skip) = split comma skip
  ∧ join comma (excluded_of (Some skip)) = skip
  ∧ Forall (λ prefix, contains comma prefix = false) (excluded_of (Some skip)).
Proof.
  intros Hne. rewrite (excluded_of_split _ Hne).
  split_and!; [done|apply join_split|apply split_fields].
Qed.

(** X19: a [--skip] value that ends in a comma has an empty last field,
    which is a prefix of every file name: no declaration file is read, no
    rule is processed, and the script reports a completed workflow. *)
Theorem skip_ending_in_comma_runs_no_rule env args prefixes names tw_map :
  arg_skip args = Some (prefixes +:+ ",") →
  listdir (env_fs env) "map_rules/" = Return names →
  twmap_Map_new env (arg_map args) = Return tw_map →
  main env args
  = (Return tt,
     [LogProcessingFile (arg_map args); CallTwmapMap (arg_map args);
      FromEngine LogAllProcessed; LogWorkflowCompleted]).
Proof.
  intros Hskip Hls Hmap. unfold main. rewrite Hskip.
  assert (prefixes +:+ "," ≠ "") as Hne by by destruct prefixes.
  rewrite (excluded_of_split _ Hne).
  destruct (split_trailing_separator comma prefixes)
    as (field & fields & Hsplit).
  unfold Loader.load_all_rules. rewrite Hls.
  rewrite load_files_all_excluded;
    [|change "," with (String comma ""); rewrite Hsplit; set_solver].
  by rewrite Hmap.
Qed.

(** X20: the script ends normally whatever [execute_rules] returns: a
    failed required rule only changes the last message, and nothing is
    raised or exited with. *)
Theorem main_reports_result env args config tw_map result :
  Loader.load_all_rules (env_fs env) "map_rules/"
    (excluded_of (arg_skip args)) = Return config →
  twmap_Map_new env (arg_map args) = Return tw_map →
  Engine.execute_rules (env_world env) (arg_map args) tw_map config
  = Return result →
  (main env args).1 = Return tt
  ∧ last (main env args).2
    = Some (if result then LogWorkflowCompleted else LogWorkflowFailed).
Proof.
  intros Hload Hmap Hrun. unfold main. rewrite Hload, Hmap.
  unfold Engine.execute_rules in Hrun. rewrite Hrun. simpl.
  split; [done|]. by rewrite app_comm_cons, last_snoc.
Qed.

End MainFacts.

(** * Documentation generation *)

Section DocsMore.

Context (w : World).

(** One iteration of the loop of [generate_rules_file], by what the raw
    mapping is. *)
Lemma collect_step rule rest acc lg :
  documentable w rule = true →
  ∃ lg',
    Docs.collect w (rule :: rest) acc lg
    = Docs.collect w rest (acc ++ option_list (documented w rule)) lg'
    ∧ evaluate_calls lg' = evaluate_calls lg.
Proof.
  unfold documentable, documented, resolve. simpl.
  unfold load_rule_from_module. intros Hdoc.
  repeat (case_match; simplify_eq/=);
    rewrite ?app_nil_r; eexists; (split; [reflexivity|]);
    rewrite ?evaluate_calls_app; unfold evaluate_calls; simpl; lia.
Qed.

Lemma collect_stops rule rest acc lg :
  documentable w rule = false →
  ∃ e, (Docs.collect w (rule :: rest) acc lg).1 = Raised e
    ∧ evaluate_calls (Docs.collect w (rule :: rest) acc lg).2
      = evaluate_calls lg.
Proof.
  unfold documentable, resolve. simpl.
  unfold load_rule_from_module. intros Hdoc.
  repeat (case_match; simplify_eq/=);
    eexists; (split; [reflexivity|]);
    rewrite ?evaluate_calls_app; unfold evaluate_calls; simpl; lia.
Qed.



Lemma collect_evaluate_calls rules acc lg :
  evaluate_calls (Docs.collect w rules acc lg).2 = evaluate_calls lg.
Proof.
  revert acc lg. induction rules as [|rule rest IH]; intros acc lg; [done|].
  destruct (documentable w rule) eqn:Hrule.
  - destruct (collect_step rule rest acc lg Hrule) as (lg' & -> & <-).
    apply IH.
  - by destruct (collect_stops rule rest acc lg Hrule) as (e & _ & ->).
Qed.


(** X22: documentation mode never calls [evaluate], however it ends. *)
Theorem generate_rules_file_never_evaluates fs :
  evaluate_calls (Docs.generate_rules_file w fs).2 = 0%nat.
Proof.
  unfold Docs.generate_rules_file.
  destruct (Loader.load_all_rules fs "map_rules/" []); [|done].
  by rewrite collect_evaluate_calls.
Qed.

End DocsMore.

(** * The further properties at the demo rule sets *)

Lemma overall_failure_only_from_require_witness :
  ∃ rule cfg,
    rule ∈ [Demo.entry "A" "Pass" "fail" [];
            Demo.entry "R" "Violate" "require" ["A"]]
    ∧ BaseRuleConfig_validate rule = Some cfg
    ∧ type cfg = TRequire.
Proof.
  destruct (overall_failure_only_from_require Demo.world "a.map" Demo.the_map
              {| rules := [Demo.entry "A" "Pass" "fail" [];
                           Demo.entry "R" "Violate" "require" ["A"]] |})
    as (pre & rule & post & st & cfg & rule_func & Hsplit & _ & Hv & Hty & _).
  - vm_compute; reflexivity.
  - exists rule, cfg. split_and!; [|done..]. simpl in Hsplit. rewrite Hsplit.
    apply elem_of_app. right. by left.
Defined.

Lemma status_table_keys_witness :
  ∃ st,
    processed Demo.world "a.map" Demo.the_map initial_state
      [Demo.entry "A" "Pass" "fail" []] st
    ∧ is_Some (rule_status st !! KStr "A").
Proof.
  eexists. split.
  - eapply processed_cons; [vm_compute; reflexivity|apply processed_nil].
  - eapply (status_table_keys Demo.world "a.map" Demo.the_map
              [Demo.entry "A" "Pass" "fail" []]).
    + eapply processed_cons; [vm_compute; reflexivity|apply processed_nil].
    + eexists. split; [by left|]. vm_compute; reflexivity.
Defined.

Lemma true_status_means_passed_witness :
  ∃ rule cfg rule_func,
    rule ∈ [Demo.entry "A" "Pass" "fail" []]
    ∧ BaseRuleConfig_validate rule = Some cfg
    ∧ KStr "A" = KStr (name cfg)
    ∧ resolve Demo.world (Some "a.map") (Some Demo.the_map) cfg
      = Resolved rule_func
    ∧ evaluate rule_func = EvalReturn [].
Proof.
  eapply (true_status_means_passed Demo.world "a.map" Demo.the_map).
  - eapply processed_cons; [vm_compute; reflexivity|apply processed_nil].
  - vm_compute; reflexivity.
Defined.

Lemma dependency_not_yet_recorded_blocks_witness :
  ∃ st st',
    process_rule Demo.world "a.map" Demo.the_map st
      (Demo.entry "B" "Pass" "fail" ["C"]) = Continue st'
    ∧ rule_status st' !! KStr "B" = Some false.
Proof.
  eexists _, _. split.
  - eapply (dependency_not_yet_recorded_blocks Demo.world "a.map" Demo.the_map
              [Demo.entry "A" "Pass" "fail" []] _
              (Demo.entry "B" "Pass" "fail" ["C"]) _ "C").
    + eapply processed_cons; [vm_compute; reflexivity|apply processed_nil].
    + repeat constructor. vm_compute. discriminate.
    + vm_compute; reflexivity.
    + simpl. by left.
  - apply lookup_insert_eq.
Defined.

Lemma evaluated_only_with_met_dependencies_witness :
  rule_status
    {| rule_status := {[ KStr "A" := true ]};
       rule_time_elapsed_bound := true; log := [] |} !! KStr "A"
  = Some true.
Proof.
  edestruct (evaluated_only_with_met_dependencies Demo.world "a.map"
               Demo.the_map
               {| rule_status := {[ KStr "A" := true ]};
                  rule_time_elapsed_bound := true; log := [] |}
               (Demo.entry "B" "Pass" "fail" ["A"])
               [CallInstantiate "checks" "Pass"; CallEvaluate "B";
                LogPassed "B"] "B")
    as (cfg & Hv & _ & Hdeps).
  - vm_compute; reflexivity.
  - right. by left.
  - apply Hdeps. vm_compute in Hv. injection Hv as <-. simpl. by left.
Defined.

Lemma resolution_error_propagates_witness :
  ∃ st',
    run_rules Edge.world "a.map" Demo.the_map initial_state
      [Edge.entry "X" "edge" "BadInit" "skip" [];
       Edge.entry "Y" "checks" "Pass" "fail" []]
    = Raise (OtherException "bad params") st'
    ∧ rule_status st' = ∅.
Proof.
  edestruct (resolution_error_propagates Edge.world "a.map" Demo.the_map
               initial_state (Edge.entry "X" "edge" "BadInit" "skip" [])
               [Edge.entry "Y" "checks" "Pass" "fail" []])
    as (st' & _ & Hstatus & Hrun).
  - vm_compute; reflexivity.
  - vm_compute; reflexivity.
  - right. vm_compute; reflexivity.
  - exists st'. split; [exact Hrun|exact Hstatus].
Defined.

Lemma non_exception_from_evaluate_propagates_witness :
  ∃ st',
    run_rules Edge.world "a.map" Demo.the_map initial_state
      [Edge.entry "X" "edge" "Exit" "skip" [];
       Edge.entry "Y" "checks" "Pass" "fail" []]
    = Raise (NonException "SystemExit") st'
    ∧ rule_status st' = ∅.
Proof.
  edestruct (non_exception_from_evaluate_propagates Edge.world "a.map"
               Demo.the_map initial_state
               (Edge.entry "X" "edge" "Exit" "skip" [])
               [Edge.entry "Y" "checks" "Pass" "fail" []])
    as (st' & _ & Hstatus & Hrun).
  - vm_compute; reflexivity.
  - vm_compute; reflexivity.
  - vm_compute; reflexivity.
  - reflexivity.
  - reflexivity.
  - exists st'. split; [exact Hrun|exact Hstatus].
Defined.

Lemma falsy_instance_reported_not_found_witness :
  ∃ st',
    process_rule Edge.world "a.map" Demo.the_map initial_state
      (Edge.entry "X" "edge" "Falsy" "require" []) = Continue st'
    ∧ log st' = [CallInstantiate "edge" "Falsy";
                 LogRuleFunctionNotFound "X" "edge"].
Proof.
  edestruct (falsy_instance_reported_not_found Edge.world "a.map"
               Demo.the_map initial_state
               (Edge.entry "X" "edge" "Falsy" "require" []) [])
    as (st' & Hstep & _ & Hlog & _).
  - vm_compute; reflexivity.
  - vm_compute; reflexivity.
  - vm_compute; reflexivity.
  - exists st'. split; [exact Hstep|exact Hlog].
Defined.

Lemma missing_module_is_skipped_witness :
  ∃ st',
    process_rule Edge.world "a.map" Demo.the_map initial_state
      (Edge.entry "X" "nowhere" "Pass" "require" []) = Continue st'
    ∧ log st' = [LogModuleNotFound "nowhere"].
Proof.
  edestruct (missing_module_is_skipped Edge.world "a.map" Demo.the_map
               initial_state (Edge.entry "X" "nowhere" "Pass" "require" [])
               [])
    as (st' & Hstep & _ & Hlog & _).
  - vm_compute; reflexivity.
  - vm_compute; reflexivity.
  - vm_compute; reflexivity.
  - exists st'. split; [exact Hstep|exact Hlog].
Defined.

Lemma invalid_entry_blocks_dependents_witness :
  ∃ st1 st2,
    process_rule Demo.world "a.map" Demo.the_map
      {| rule_status := {[ KStr "A" := true ]};
         rule_time_elapsed_bound := true; log := [] |}
      (Edge.invalid_entry "A") = Continue st1
    ∧ process_rule Demo.world "a.map" Demo.the_map st1
        (Demo.entry "D" "Pass" "fail" ["A"]) = Continue st2
    ∧ rule_status st2 !! KStr "D" = Some false.
Proof.
  edestruct (invalid_entry_blocks_dependents Demo.world "a.map" Demo.the_map
               {| rule_status := {[ KStr "A" := true ]};
                  rule_time_elapsed_bound := true; log := [] |}
               (Edge.invalid_entry "A") "A"
               (Demo.entry "D" "Pass" "fail" ["A"]))
    as (st1 & st2 & Hstep1 & _ & Hstep2 & Hstatus & _).
  - vm_compute; reflexivity.
  - vm_compute; reflexivity.
  - vm_compute; reflexivity.
  - simpl. by left.
  - exists st1, st2. split_and!; [exact Hstep1|exact Hstep2|exact Hstatus].
Defined.

Lemma evaluation_error_after_an_evaluation_witness :
  ∃ st st',
    processed Demo.world "a.map" Demo.the_map initial_state
      [Demo.entry "A" "Pass" "fail" []] st
    ∧ process_rule Demo.world "a.map" Demo.the_map st
        (Demo.entry "B" "Boom" "skip" []) = Continue st'.
Proof.
  edestruct (evaluation_error_after_an_evaluation Demo.world "a.map"
               Demo.the_map)
    with (pre := [Demo.entry "A" "Pass" "fail" []])
         (rule := Demo.entry "B" "Boom" "skip" [])
    as (st' & _ & Hstep).
  - eapply processed_cons; [vm_compute; reflexivity|apply processed_nil].
  - right. by left.
  - vm_compute; reflexivity.
  - vm_compute; reflexivity.
  - vm_compute; reflexivity.
  - reflexivity.
  - reflexivity.
  - eexists _, st'. split; [|exact Hstep].
    eapply processed_cons; [vm_compute; reflexivity|apply processed_nil].
Defined.

Lemma load_all_rules_depends_only_on_declaration_files_witness :
  Loader.load_all_rules Demo.fs "map_rules/" ["b_"]
  = Loader.load_all_rules Edge.fs_relisted "map_rules/" ["b_"].
Proof.
  apply (load_all_rules_depends_only_on_declaration_files "map_rules/" ["b_"]
           Demo.fs Edge.fs_relisted
           ["b_extra.yaml"; "notes.txt"; "a_base.yaml"]
           ["a_base.yaml"; "b_extra.yaml"; "notes.txt"]).
  - reflexivity.
  - reflexivity.
  - symmetry.
    apply (Permutation_cons_append ["b_extra.yaml"; "notes.txt"]
             "a_base.yaml").
  - intros f Hf Hdecl.
    apply elem_of_cons in Hf as [->|Hf]; [vm_compute in Hdecl; discriminate|].
    apply elem_of_cons in Hf as [->|Hf]; [vm_compute in Hdecl; discriminate|].
    apply elem_of_cons in Hf as [->|Hf]; [reflexivity|].
    by apply elem_of_nil in Hf.
Defined.

Lemma unloadable_declaration_file_is_fatal_witness :
  ∃ e, Loader.load_all_rules Edge.fs_broken "map_rules/" ["b_"] = Raised e.
Proof.
  apply (unloadable_declaration_file_is_fatal "map_rules/" ["b_"]
           Edge.fs_broken ["broken.yaml"; "a_base.yaml"] "broken.yaml").
  - reflexivity.
  - by left.
  - vm_compute; reflexivity.
  - right. right. reflexivity.
Defined.

Lemma empty_prefix_excludes_every_file_witness :
  Loader.load_all_rules Demo.fs "map_rules/" ["b_"; ""]
  = Return {| rules := [] |}.
Proof.
  apply (empty_prefix_excludes_every_file "map_rules/" ["b_"; ""] Demo.fs
           ["b_extra.yaml"; "notes.txt"; "a_base.yaml"]).
  - right. left.
  - reflexivity.
Defined.

Lemma more_exclusions_give_a_sublist_witness :
  ∃ config config',
    Loader.load_all_rules Demo.fs "map_rules/" [] = Return config
    ∧ Loader.load_all_rules Demo.fs "map_rules/" ["b_"] = Return config'
    ∧ rules config' `sublist_of` rules config.
Proof.
  edestruct (more_exclusions_give_a_sublist Demo.fs "map_rules/" [] ["b_"])
    as (config' & Hload' & Hsub).
  - by intros ? ?%elem_of_nil.
  - vm_compute; reflexivity.
  - eexists _, config'. split_and!; [vm_compute; reflexivity|exact Hload'|].
    exact Hsub.
Defined.

Lemma excluded_of_fields_witness :
  Main.excluded_of (Some "a_,b") = ["a_"; "b"]
  ∧ Main.join Main.comma (Main.excluded_of (Some "a_,b")) = "a_,b".
Proof.
  destruct (excluded_of_fields "a_,b") as (Hsplit & Hjoin & _); [done|].
  split; [|exact Hjoin]. rewrite Hsplit. reflexivity.
Defined.

Lemma skip_ending_in_comma_runs_no_rule_witness :
  (Main.main Edge.env
     {| Main.arg_map := "a.map"; Main.arg_skip := Some "b_,";
        Main.arg_ci := None |}).1
  = Return tt.
Proof.
  rewrite (skip_ending_in_comma_runs_no_rule Edge.env
             {| Main.arg_map := "a.map"; Main.arg_skip := Some "b_,";
                Main.arg_ci := None |}
             "b_" ["b_extra.yaml"; "notes.txt"; "a_base.yaml"] Demo.the_map);
    reflexivity.
Defined.

Lemma main_reports_result_witness :
  last (Main.main Edge.env
          {| Main.arg_map := "a.map"; Main.arg_skip := Some "b_";
             Main.arg_ci := None |}).2
  = Some Main.LogWorkflowCompleted.
Proof.
  edestruct (main_reports_result Edge.env
               {| Main.arg_map := "a.map"; Main.arg_skip := Some "b_";
                  Main.arg_ci := None |})
    as [_ Hlast].
  - vm_compute; reflexivity.
  - reflexivity.
  - vm_compute; reflexivity.
  - exact Hlast.
Defined.


Lemma clean_configuration_succeeds_witness :
  execute_rules Demo.world "a.map" Demo.the_map
    {| rules := [Demo.entry "A" "Pass" "require" [];
                 Demo.entry "B" "Pass" "fail" ["A"]] |}
  = Return true.
Proof.
  apply (clean_configuration_succeeds Demo.world "a.map" Demo.the_map
           {| rules := [Demo.entry "A" "Pass" "require" [];
                        Demo.entry "B" "Pass" "fail" ["A"]] |}).
  vm_compute; reflexivity.
Defined.
